(** * The procedure engine of [packages/server/src/internals/procedure.ts]

    A shallow embedding of the [Procedure] class (validator adapter
    resolution, the middleware chain built by [call], and
    [inheritMiddlewares]) together with [createProcedure], followed by the
    properties of the engine.

    Conventions.
    - JavaScript values are the inductive [Value]; a settled promise (or the
      result of a call that may throw) is an [Outcome].
    - User callbacks are data: a validator or resolver is a function to an
      [Outcome]; a middleware body is a tree [MwProg] whose nodes are its
      [await next(...)] calls.
    - The engine runs in the writer monad [Run], which records, in order,
      every callback invocation the engine makes. *)

From stdpp Require Import base strings list gmap.

Open Scope string_scope.
Open Scope list_scope.
Open Scope nat_scope.

(** ** JavaScript values *)

(** The values that flow through the engine.  [VError] is an instance of
    the built-in [Error] (or a subclass such as [TypeError], told apart by
    [name]); [VTRPCError] is an instance of the [TRPCError] class, whose
    [code] is one of the string literals the source writes
    (['BAD_REQUEST'], ['INTERNAL_SERVER_ERROR'], ...).  Numbers are the
    integer-valued ones. *)
#[warnings="-register-all"]
Inductive Value : Type :=
  | VUndefined
  | VNull
  | VBool (b : bool)
  | VNum (n : Z)
  | VStr (s : string)
  | VObj (fields : list (string * Value))
  | VError (name message : string)
  | VTRPCError (code message : string) (cause : Value).

(** A settled promise: [await] of [Fulfilled v] yields [v], [await] of
    [Rejected e] throws [e].  A synchronous return or throw is the same
    outcome. *)
Inductive Outcome (A : Type) : Type :=
  | Fulfilled (a : A)
  | Rejected (e : Value).
Arguments Fulfilled {A} a.
Arguments Rejected {A} e.

(** JavaScript truthiness ([!v] is [negb (truthy v)]). *)
Definition truthy (v : Value) : bool :=
  match v with
  | VUndefined | VNull => false
  | VBool b => b
  | VNum n => negb (n =? 0)%Z
  | VStr s => negb (String.eqb s "")
  | VObj _ | VError _ _ | VTRPCError _ _ _ => true
  end.

(** [v == null]: true of [null] and [undefined] only. *)
Definition nullish (v : Value) : bool :=
  match v with
  | VUndefined | VNull => true
  | _ => false
  end.

Fixpoint assoc (k : string) (fs : list (string * Value)) : option Value :=
  match fs with
  | [] => None
  | (k', v) :: rest => if String.eqb k k' then Some v else assoc k rest
  end.

(** Property read [v.k] on a non-nullish value; a missing property reads as
    [undefined]. *)
Definition getProp (k : string) (v : Value) : Value :=
  match v with
  | VObj fs => default VUndefined (assoc k fs)
  | VError n m =>
      if String.eqb k "name" then VStr n
      else if String.eqb k "message" then VStr m
      else VUndefined
  | VTRPCError c m cause =>
      if String.eqb k "code" then VStr c
      else if String.eqb k "message" then VStr m
      else if String.eqb k "cause" then cause
      else if String.eqb k "name" then VStr "TRPCError"
      else VUndefined
  | _ => VUndefined
  end.

(** Property write used by object literals and spread: an existing key keeps
    its position and takes the new value, a new key is appended. *)
Fixpoint setProp (k : string) (v : Value) (fs : list (string * Value))
  : list (string * Value) :=
  match fs with
  | [] => [(k, v)]
  | (k', v') :: rest =>
      if String.eqb k k' then (k, v) :: rest else (k', v') :: setProp k v rest
  end.

(** ** Collaborators declared outside this file *)

(** Modelled from the spec: the [TRPCError] constructor of [../TRPCError],
    a classified error [{ kind, message, cause }]; [cause] is [undefined]
    when the options give none. *)
Definition new_TRPCError (code message : string) (cause : Value) : Value :=
  VTRPCError code message cause.

(** [e instanceof TRPCError]. *)
Definition is_TRPCError (e : Value) : bool :=
  match e with
  | VTRPCError _ _ _ => true
  | _ => false
  end.

(** The kind of a classified error; a value that is not one has none. *)
Definition kind_of (e : Value) : option string :=
  match e with
  | VTRPCError c _ _ => Some c
  | _ => None
  end.

(** The cause a classified error carries. *)
Definition cause_of (e : Value) : option Value :=
  match e with
  | VTRPCError _ _ c => Some c
  | _ => None
  end.

Definition generic_message : string := "Internal server error".

(** Modelled from the spec: [getErrorFromUnknown] of [./errors], the error
    normalizer (section 4.3): a classified error passes through unchanged,
    anything else is wrapped as [INTERNAL_SERVER_ERROR] with the original
    value as cause and a generic message. *)
Definition getErrorFromUnknown (cause : Value) : Value :=
  if is_TRPCError cause then cause
  else new_TRPCError "INTERNAL_SERVER_ERROR" generic_message cause.

(** Modelled from the spec: [middlewareMarker] of [./middlewares], the
    constant that brands a middleware result. *)
Definition middlewareMarker : Value := VStr "middlewareMarker".

(** Modelled from the spec: [ProcedureType] of [../router], the closed set
    of call kinds, forwarded and never interpreted here. *)
Inductive ProcedureType : Type := query | mutation | subscription.

Definition ProcedureType_value (t : ProcedureType) : Value :=
  match t with
  | query => VStr "query"
  | mutation => VStr "mutation"
  | subscription => VStr "subscription"
  end.

(** ** Callback invocations and the [Run] monad *)

(** The parameter bundle [{ ctx, type, path, rawInput, next }] a link of the
    chain is called with; [next] is supplied by the interpreter of the
    link's body. *)
Record MwArgs : Type := mkMwArgs {
  mw_ctx : Value;
  mw_type : ProcedureType;
  mw_path : string;
  mw_rawInput : Value
}.

(** One record per callback the engine invokes. *)
Inductive Event : Type :=
  | EvFn (index : nat) (args : MwArgs)   (* [fn({...})] inside [nextFns[index]] *)
  | EvParseInput (rawInput : Value)      (* [this.parseInputFn(rawInput)] *)
  | EvResolver (arg : Value)             (* [this.resolver({...})] *)
  | EvParseOutput (rawOutput : Value).   (* [this.parseOutputFn(rawOutput)] *)

(** A computation of the engine: its value and the invocations it made. *)
Definition Run (A : Type) : Type := A * list Event.

Definition ret {A} (a : A) : Run A := (a, []).

Definition bind {A B} (m : Run A) (f : A → Run B) : Run B :=
  let r := f (fst m) in (fst r, snd m ++ snd r).

Definition emit (e : Event) : Run unit := (tt, [e]).

(** [await] inside an [async] body: a rejection ends the body. *)
Definition bind_await {A B} (m : Run (Outcome A)) (f : A → Run (Outcome B))
  : Run (Outcome B) :=
  bind m (fun o =>
    match o with
    | Fulfilled a => f a
    | Rejected e => ret (Rejected e)
    end).

Declare Scope run_scope.
Delimit Scope run_scope with run.
Notation "'let*' x ':=' m 'in' k" := (bind m (fun x => k))
  (at level 10, x name, m at level 100, k at level 200) : run_scope.
Notation "'emit*' e 'in' k" := (bind (emit e) (fun _ => k))
  (at level 10, e at level 100, k at level 200) : run_scope.
Notation "'await*' x ':=' m 'in' k" := (bind_await m (fun x => k))
  (at level 10, x name, m at level 100, k at level 200) : run_scope.
Open Scope run_scope.

Definition value_of {A} (m : Run A) : A := fst m.
Definition trace_of {A} (m : Run A) : list Event := snd m.

(** ** Validators and [getParseFn] *)

(** The uniform parse function [ParseFn<T>]: it returns, or resolves to,
    the parsed value, or throws. *)
Definition ParseFn : Type := Value → Outcome Value.

(** A validator value as [getParseFn] sees it through [as any].
    - [ParserFunction f]: [typeof parser === 'function'].
    - [ParserObject pa p vs c]: an object that is not callable; a component
      is [Some f] exactly when the property of that name ([parseAsync],
      [parse], [validateSync], [create]) is a function, [f] being that
      method bound to the object.
    - [ParserData v]: any other value (a primitive, [null], [undefined] or
      plain data), none of whose properties is a function. *)
Inductive Parser : Type :=
  | ParserFunction (f : ParseFn)
  | ParserObject (parseAsync parse validateSync create : option ParseFn)
  | ParserData (v : Value).

(** Truthiness of a validator value: functions and objects are truthy. *)
Definition parser_truthy (parser : Parser) : bool :=
  match parser with
  | ParserFunction _ | ParserObject _ _ _ _ => true
  | ParserData v => truthy v
  end.

Definition no_validator_error : Value :=
  VError "Error" "Could not find a validator fn".

(** Reading a property of [null] or [undefined] throws a [TypeError].  Only
    the error's name is modelled: the text of its message is the JavaScript
    engine's, it is left empty here and no statement reads it. *)
Definition property_of_nullish_error : Value :=
  VError "TypeError" "".

(** [getParseFn] (lines 62-91): the probes in source order; the result is
    the parse function returned, or the value thrown. *)
Definition getParseFn (parser : Parser) : Outcome ParseFn :=
  match parser with
  | ParserFunction f => Fulfilled f
  | ParserObject parseAsync parse validateSync create =>
      match parseAsync with
      | Some f => Fulfilled f
      | None =>
      match parse with
      | Some f => Fulfilled f
      | None =>
      match validateSync with
      | Some f => Fulfilled f
      | None =>
      match create with
      | Some f => Fulfilled f
      | None => Rejected no_validator_error
      end end end end
  | ParserData v =>
      if nullish v then Rejected property_of_nullish_error
      else Rejected no_validator_error
  end.

(** ** Middlewares, resolvers and procedures *)

(** The optional argument [nextOpts?: { ctx }] of a continuation. *)
Record NextOpts : Type := mkNextOpts { next_ctx : Value }.

(** The body of a middleware run on its parameter bundle: it settles
    (returns a value or throws), or awaits [next(nextOpts)] and goes on with
    the value the continuation resolved to. *)
Inductive MwProg : Type :=
  | Settle (o : Outcome Value)
  | AwaitNext (nextOpts : option NextOpts) (k : Value → MwProg).

Definition Middleware : Type := MwArgs → MwProg.

(** [ProcedureResolver]: called with one options object. *)
Definition Resolver : Type := Value → Outcome Value.

(** [ProcedureCallOptions] (lines 53-58). *)
Record ProcedureCallOptions : Type := mkCallOptions {
  ctx : Value;
  rawInput : Value;
  path : string;
  type : ProcedureType
}.

(** [ProcedureOptions] (lines 43-48); an absent [outputParser] is
    [ParserData VUndefined]. *)
Record ProcedureOptions : Type := mkProcedureOptions {
  opt_middlewares : list Middleware;
  opt_resolver : Resolver;
  opt_inputParser : Parser;
  opt_outputParser : Parser
}.

(** The fields of a [Procedure] instance (lines 97-102). *)
Record Procedure : Type := mkProcedure {
  middlewares : list Middleware;
  resolver : Resolver;
  inputParser : Parser;
  parseInputFn : ParseFn;
  outputParser : Parser;
  parseOutputFn : ParseFn
}.

(** The process environment, as far as the constructor reads it: the value
    of [process.env.TRPC_SKIP_OUTPUT_VALIDATION], [None] when unset. *)
Definition Env : Type := option string.

Definition skip_output_validation (env : Env) : bool :=
  match env with
  | Some s => String.eqb s "true"
  | None => false
  end.

(** The output parse function used when validation is skipped (line 113). *)
Definition identity_parse : ParseFn := fun output => Fulfilled output.

(** The constructor (lines 104-114): the new instance, or the value
    [getParseFn] threw. *)
Definition new_Procedure (env : Env) (opts : ProcedureOptions)
  : Outcome Procedure :=
  match getParseFn (opt_inputParser opts) with
  | Rejected e => Rejected e
  | Fulfilled inFn =>
      if parser_truthy (opt_outputParser opts)
         && negb (skip_output_validation env)
      then
        match getParseFn (opt_outputParser opts) with
        | Rejected e => Rejected e
        | Fulfilled outFn =>
            Fulfilled
              (mkProcedure (opt_middlewares opts) (opt_resolver opts)
                 (opt_inputParser opts) inFn (opt_outputParser opts) outFn)
        end
      else
        Fulfilled
          (mkProcedure (opt_middlewares opts) (opt_resolver opts)
             (opt_inputParser opts) inFn (opt_outputParser opts)
             identity_parse)
  end.

(** [parseInput] (lines 116-126). *)
Definition parseInput (this : Procedure) (raw : Value) : Run (Outcome Value) :=
  emit* EvParseInput raw in
  match parseInputFn this raw with
  | Fulfilled parsed => ret (Fulfilled parsed)
  | Rejected cause =>
      ret (Rejected (new_TRPCError "BAD_REQUEST" "Input validation failed" cause))
  end.

(** [parseOutput] (lines 128-138). *)
Definition parseOutput (this : Procedure) (rawOutput : Value)
  : Run (Outcome Value) :=
  emit* EvParseOutput rawOutput in
  match parseOutputFn this rawOutput with
  | Fulfilled parsed => ret (Fulfilled parsed)
  | Rejected cause =>
      ret (Rejected
             (new_TRPCError "INTERNAL_SERVER_ERROR" "Output validation failed"
                cause))
  end.

(** ** The chain engine: [call] *)

(** A continuation [nextFns[i]]: it never throws. *)
Definition NextFn : Type := option NextOpts → Run Value.

(** An element of [middlewaresWithResolver], applied to its parameter
    bundle and to the [next] it is given ([None] is [undefined]). *)
Definition ChainFn : Type := MwArgs → option NextFn → Run (Outcome Value).

Definition not_a_function_error : Value :=
  VError "TypeError" "next is not a function".

(** Running a middleware body against the continuation it was given. *)
Fixpoint runMiddleware (body : MwProg) (next : option NextFn)
  : Run (Outcome Value) :=
  match body with
  | Settle o => ret o
  | AwaitNext nextOpts k =>
      match next with
      | Some nextFn =>
          let* res := nextFn nextOpts in runMiddleware (k res) next
      | None => ret (Rejected not_a_function_error)
      end
  end.

Definition userFn (fn : Middleware) : ChainFn :=
  fun args next => runMiddleware (fn args) next.

(** The own properties of the options object [opts]. *)
Definition opts_fields (opts : ProcedureCallOptions) : list (string * Value) :=
  [("ctx", ctx opts); ("rawInput", rawInput opts);
   ("path", VStr (path opts)); ("type", ProcedureType_value (type opts))].

(** The argument [{ ...opts, ctx, input }] of the resolver (line 151). *)
Definition resolver_arg (opts : ProcedureCallOptions) (c input : Value)
  : Value :=
  VObj (setProp "input" input (setProp "ctx" c (opts_fields opts))).

(** The synthetic last middleware (lines 149-159). *)
Definition terminal (this : Procedure) (opts : ProcedureCallOptions) : ChainFn :=
  fun args _ =>
    await* input := parseInput this (rawInput opts) in
    await* rawOutput :=
      (emit* EvResolver (resolver_arg opts (mw_ctx args) input) in
       ret (resolver this (resolver_arg opts (mw_ctx args) input))) in
    await* data := parseOutput this rawOutput in
    ret (Fulfilled
           (VObj [("marker", middlewareMarker); ("ok", VBool true);
                  ("data", data); ("ctx", mw_ctx args)])).

(** Modelled from the spec: [wrapCallSafe] of [./wrapCallSafe], the safe
    invoker (section 4.2): the step's data tagged as success, or whatever it
    threw, normalized, tagged as failure. *)
Inductive SafeResult : Type :=
  | SafeOk (data : Value)
  | SafeErr (error : Value).

Definition wrapCallSafe (step : Run (Outcome Value)) : Run SafeResult :=
  let* o := step in
  match o with
  | Fulfilled data => ret (SafeOk data)
  | Rejected error => ret (SafeErr (getErrorFromUnknown error))
  end.

(** The parameter bundle built at lines 166-172 (without [next]). *)
Definition link_args (opts : ProcedureCallOptions) (nextOpts : option NextOpts)
  : MwArgs :=
  {| mw_ctx := match nextOpts with
               | Some o => next_ctx o
               | None => ctx opts
               end;
     mw_type := type opts;
     mw_path := path opts;
     mw_rawInput := rawInput opts |}.

(** One continuation (lines 164-181) for the function [fn] at [index],
    [next] being [nextFns[index + 1]]. *)
Definition nextFn (opts : ProcedureCallOptions) (fn : ChainFn) (index : nat)
    (next : option NextFn) : NextFn :=
  fun nextOpts =>
    let* res :=
      wrapCallSafe
        (emit* EvFn index (link_args opts nextOpts) in
         fn (link_args opts nextOpts) next) in
    match res with
    | SafeOk data => ret data
    | SafeErr error =>
        ret (VObj [("ok", VBool false); ("error", getErrorFromUnknown error)])
    end.

(** [nextFns] (line 163): the continuations of [fns], which sit at the
    indices [index], [index + 1], ... of [middlewaresWithResolver]. *)
Fixpoint nextFns (opts : ProcedureCallOptions) (fns : list ChainFn)
    (index : nat) : list NextFn :=
  match fns with
  | [] => []
  | fn :: rest =>
      let later := nextFns opts rest (S index) in
      nextFn opts fn index (later !! 0) :: later
  end.

Definition no_result_message : string :=
  "No result from middlewares - did you forget to `return next()`?".

(** The chain built by [call] and the result of [nextFns[0]()]
    (lines 148-185). *)
Definition middlewaresWithResolver (this : Procedure)
    (opts : ProcedureCallOptions) : list ChainFn :=
  (userFn <$> middlewares this) ++ [terminal this opts].

Definition chain_result (this : Procedure) (opts : ProcedureCallOptions)
  : Run (Outcome Value) :=
  match nextFns opts (middlewaresWithResolver this opts) 0 !! 0 with
  | Some next0 => let* result := next0 None in ret (Fulfilled result)
  | None => ret (Rejected not_a_function_error)
  end.

(** [call] (lines 144-199). *)
Definition call (this : Procedure) (opts : ProcedureCallOptions)
  : Run (Outcome Value) :=
  await* result := chain_result this opts in
  if negb (truthy result) then
    ret (Rejected
           (new_TRPCError "INTERNAL_SERVER_ERROR" no_result_message VUndefined))
  else if negb (truthy (getProp "ok" result)) then
    ret (Rejected (getProp "error" result))
  else
    ret (Fulfilled (getProp "data" result)).

(** ** Composition and creation *)

(** [inheritMiddlewares] (lines 205-226): a new instance from the
    constructor, in the environment current at that moment. *)
Definition inheritMiddlewares (env : Env) (this : Procedure)
    (mws : list Middleware) : Outcome Procedure :=
  new_Procedure env
    {| opt_middlewares := mws ++ middlewares this;
       opt_resolver := resolver this;
       opt_inputParser := inputParser this;
       opt_outputParser := outputParser this |}.

(** [CreateProcedureOptions] (lines 229-260): [input] is [None] when the
    options have no [input] key; an absent [output] is
    [ParserData VUndefined]. *)
Record CreateProcedureOptions : Type := mkCreateOptions {
  input : option Parser;
  output : Parser;
  resolve : Resolver
}.

(** The parser [createProcedure] supplies when no input validator is
    declared (lines 268-276). *)
Definition no_input_parser : ParseFn :=
  fun input =>
    if negb (nullish input) then
      Rejected (new_TRPCError "BAD_REQUEST" "No input expected" VUndefined)
    else Fulfilled VUndefined.

(** ['input' in opts && opts.input] (line 266). *)
Definition declared_input (opts : CreateProcedureOptions) : option Parser :=
  match input opts with
  | Some parser => if parser_truthy parser then Some parser else None
  | None => None
  end.

(** [createProcedure] (lines 262-284). *)
Definition createProcedure (env : Env) (opts : CreateProcedureOptions)
  : Outcome Procedure :=
  let inputParser :=
    match declared_input opts with
    | Some parser => parser
    | None => ParserFunction no_input_parser
    end in
  new_Procedure env
    {| opt_inputParser := inputParser;
       opt_resolver := resolve opts;
       opt_middlewares := [];
       opt_outputParser := output opts |}.

(** ** Instances in the object store

    [Procedure] instances and the arrays their [middlewares] fields refer
    to live in the JavaScript heap.  The store below keeps both by reference,
    so that what [inheritMiddlewares] allocates, and what it leaves alone,
    can be stated. *)
Module Store.

Definition ref : Type := nat.

(** An instance whose [middlewares] field is a reference to an array. *)
Record Instance : Type := mkInstance {
  i_middlewares : ref;
  i_resolver : Resolver;
  i_inputParser : Parser;
  i_parseInputFn : ParseFn;
  i_outputParser : Parser;
  i_parseOutputFn : ParseFn
}.

Record Heap : Type := mkHeap {
  arrays : gmap ref (list Middleware);
  instances : gmap ref Instance
}.

Definition alloc_array (h : Heap) (a : list Middleware) : ref * Heap :=
  let r := fresh (dom (arrays h)) in
  (r, mkHeap (<[r := a]> (arrays h)) (instances h)).

Definition alloc_instance (h : Heap) (i : Instance) : ref * Heap :=
  let r := fresh (dom (instances h)) in
  (r, mkHeap (arrays h) (<[r := i]> (instances h))).

(** The instance at [r] with its array read out. *)
Definition read (h : Heap) (r : ref) : option Procedure :=
  i ← instances h !! r;
  mws ← arrays h !! i_middlewares i;
  Some (mkProcedure mws (i_resolver i) (i_inputParser i)
          (i_parseInputFn i) (i_outputParser i) (i_parseOutputFn i)).

(** The constructor on the heap (lines 104-114):
    [this.middlewares = opts.middlewares] stores the reference it is
    given. *)
Definition construct (env : Env) (h : Heap) (mws : ref) (res : Resolver)
    (inP outP : Parser) : Outcome (ref * Heap) :=
  match getParseFn inP with
  | Rejected e => Rejected e
  | Fulfilled inFn =>
      if parser_truthy outP && negb (skip_output_validation env)
      then
        match getParseFn outP with
        | Rejected e => Rejected e
        | Fulfilled outFn =>
            Fulfilled
              (alloc_instance h (mkInstance mws res inP inFn outP outFn))
        end
      else
        Fulfilled
          (alloc_instance h
             (mkInstance mws res inP inFn outP identity_parse))
  end.

(** [inheritMiddlewares] on the heap: the spread
    [[...middlewares, ...this.middlewares]] allocates a new array, and the
    constructor a new instance that refers to it.  [None] when [this] is
    not a live instance. *)
Definition inheritMiddlewares (env : Env) (h : Heap) (this : ref)
    (mws : list Middleware) : option (Outcome (ref * Heap)) :=
  i ← instances h !! this;
  existing ← arrays h !! i_middlewares i;
  let '(a, h1) := alloc_array h (mws ++ existing) in
  Some (construct env h1 a (i_resolver i) (i_inputParser i)
          (i_outputParser i)).

(** [call] on the instance at [r]; the heap is only read
    ([this.middlewares.concat] builds a new array). *)
Definition call (h : Heap) (r : ref) (opts : ProcedureCallOptions)
  : option (Run (Outcome Value)) :=
  p ← read h r; Some (call p opts).

End Store.

(** ** Vocabulary of the statements *)

(** [nextFns[index]] for the functions [fns] placed from [index] on. *)
Definition link (opts : ProcedureCallOptions) (fns : list ChainFn)
    (index : nat) : option NextFn :=
  nextFns opts fns index !! 0.

(** The indices of the chain functions invoked, in order. *)
Definition fn_indices (t : list Event) : list nat :=
  omap (fun e => match e with EvFn i _ => Some i | _ => None end) t.

(** The arguments the resolver was invoked with, in order. *)
Definition resolver_args (t : list Event) : list Value :=
  omap (fun e => match e with EvResolver a => Some a | _ => None end) t.

(** A middleware that awaits [next(...)] exactly once, whatever it does with
    the result. *)
Definition calls_next_once (fn : Middleware) : Prop :=
  ∀ args, ∃ nextOpts k,
    fn args = AwaitNext nextOpts k ∧ ∀ v, ∃ o, k v = Settle o.

(** A middleware that returns the result of its one [next(...)] call:
    [return next(...)]. *)
Definition forwards (fn : Middleware) : Prop :=
  ∀ args, ∃ nextOpts k,
    fn args = AwaitNext nextOpts k ∧ ∀ v, k v = Settle (Fulfilled v).

(** A middleware that settles without calling [next]. *)
Definition skips_next (fn : Middleware) : Prop :=
  ∀ args, ∃ o, fn args = Settle o.

(** The value a continuation resolves to, from the outcome of its function. *)
Definition settle_link (o : Outcome Value) : Value :=
  match o with
  | Fulfilled data => data
  | Rejected e => VObj [("ok", VBool false); ("error", getErrorFromUnknown e)]
  end.

(** What [call] makes of the chain's result (lines 186-198). *)
Definition conclude (result : Value) : Outcome Value :=
  if negb (truthy result) then
    Rejected (new_TRPCError "INTERNAL_SERVER_ERROR" no_result_message VUndefined)
  else if negb (truthy (getProp "ok" result)) then
    Rejected (getProp "error" result)
  else Fulfilled (getProp "data" result).

(** The [nextOpts] that reach the link after [mws], when each of [mws] is
    entered in turn and awaits [next] first: the argument of the last
    [next(...)] call, or [nextOpts] itself when [mws] is empty. *)
Fixpoint pass_through (opts : ProcedureCallOptions) (mws : list Middleware)
    (nextOpts : option NextOpts) : option NextOpts :=
  match mws with
  | [] => nextOpts
  | fn :: rest =>
      match fn (link_args opts nextOpts) with
      | AwaitNext nextOpts' _ => pass_through opts rest nextOpts'
      | Settle _ => nextOpts
      end
  end.

(** The invocations of [mws], placed from [index] on, along that way. *)
Fixpoint pass_events (opts : ProcedureCallOptions) (mws : list Middleware)
    (index : nat) (nextOpts : option NextOpts) : list Event :=
  match mws with
  | [] => []
  | fn :: rest =>
      EvFn index (link_args opts nextOpts) ::
      match fn (link_args opts nextOpts) with
      | AwaitNext nextOpts' _ => pass_events opts rest (S index) nextOpts'
      | Settle _ => []
      end
  end.

(** The context the synthetic last function is entered with, past
    middlewares that each await [next] first. *)
Definition ctx_reaching_resolver (opts : ProcedureCallOptions)
    (mws : list Middleware) : Value :=
  mw_ctx (link_args opts (pass_through opts mws None)).

(** A validator value that has none of the shapes [getParseFn] probes. *)
Definition unrecognized (parser : Parser) : Prop :=
  match parser with
  | ParserFunction _ => False
  | ParserObject None None None None => True
  | ParserObject _ _ _ _ => False
  | ParserData _ => True
  end.


(** Sample middlewares. *)
Definition mw_pass : Middleware :=
  fun _ => AwaitNext None (fun res => Settle (Fulfilled res)).

Definition mw_with_ctx (c : Value) : Middleware :=
  fun _ => AwaitNext (Some (mkNextOpts c)) (fun res => Settle (Fulfilled res)).

Definition mw_return (v : Value) : Middleware :=
  fun _ => Settle (Fulfilled v).

Definition mw_throw (e : Value) : Middleware :=
  fun _ => Settle (Rejected e).

(** A sample procedure: the resolver returns its [input]; the input
    validator accepts strings only and appends an exclamation mark, so that
    the parsed value differs from the raw one. *)
Definition sample_resolver : Resolver :=
  fun arg => Fulfilled (getProp "input" arg).

Definition string_parser : ParseFn :=
  fun v => match v with
           | VStr s => Fulfilled (VStr (s ++ "!"))
           | _ => Rejected (VError "Error" "expected a string")
           end.

Definition sample_procedure (mws : list Middleware) : Procedure :=
  mkProcedure mws sample_resolver (ParserFunction string_parser)
    string_parser (ParserData VUndefined) identity_parse.

Definition sample_opts : ProcedureCallOptions :=
  mkCallOptions (VStr "ctx0") (VStr "hi") "greet" query.

(** A classified error of kind [FORBIDDEN], and a procedure whose resolver
    throws it. *)
Definition forbidden : Value := VTRPCError "FORBIDDEN" "not allowed" (VStr "why").

Definition throwing_procedure (mws : list Middleware) : Procedure :=
  mkProcedure mws (fun _ => Rejected forbidden) (ParserFunction string_parser)
    string_parser (ParserData VUndefined) identity_parse.

(** A heap with one live instance, whose array holds one middleware. *)
Definition sample_heap : Store.Heap :=
  Store.mkHeap {[ 0 := [mw_pass] ]}
    {[ 0 := Store.mkInstance 0 sample_resolver (ParserFunction string_parser)
              string_parser (ParserData VUndefined) identity_parse ]}.

(** A validator object with no method, and options that declare it. *)
Definition shapeless_parser : Parser := ParserObject None None None None.

Definition shapeless_options : ProcedureOptions :=
  mkProcedureOptions [] sample_resolver shapeless_parser (ParserData VUndefined).

(** ** Further vocabulary *)

(** A middleware that awaits [next()] without options and returns what it
    resolved to. *)
Definition transparent (fn : Middleware) : Prop :=
  ∀ args, ∃ k, fn args = AwaitNext None k ∧ ∀ v, k v = Settle (Fulfilled v).

(** The events of the synthetic function entered at [index] with
    [nextOpts]. *)
Definition terminal_events (this : Procedure) (opts : ProcedureCallOptions)
    (index : nat) (nextOpts : option NextOpts) : list Event :=
  EvFn index (link_args opts nextOpts)
    :: trace_of (terminal this opts (link_args opts nextOpts) None).

(** The source procedure with [mws] prepended and every other field kept. *)
Definition with_prepended (mws : list Middleware) (this : Procedure)
  : Procedure :=
  mkProcedure (mws ++ middlewares this) (resolver this) (inputParser this)
    (parseInputFn this) (outputParser this) (parseOutputFn this).

(** More sample middlewares and procedures. *)
Definition mw_twice : Middleware :=
  fun _ => AwaitNext None (fun _ =>
           AwaitNext (Some (mkNextOpts (VStr "again"))) (fun res =>
           Settle (Fulfilled res))).

Definition mw_replace (r : Value) : Middleware :=
  fun _ => AwaitNext None (fun _ => Settle (Fulfilled r)).

Definition marking_parser : ParseFn :=
  fun v => match v with
           | VStr s => Fulfilled (VStr (s ++ "?"))
           | _ => Rejected (VError "Error" "expected a string")
           end.

Definition validated_options : ProcedureOptions :=
  mkProcedureOptions [mw_pass] sample_resolver (ParserFunction string_parser)
    (ParserObject None (Some marking_parser) None None).

Definition validated_procedure : Procedure :=
  mkProcedure [mw_pass] sample_resolver (ParserFunction string_parser)
    string_parser (ParserObject None (Some marking_parser) None None)
    marking_parser.

(** ** Behaviour of middlewares on one call *)

(** On this call, each of [mws], entered in turn starting with [nextOpts],
    awaits [next] once at the arguments it is given and then settles. *)
Fixpoint once_along (opts : ProcedureCallOptions) (mws : list Middleware)
    (nextOpts : option NextOpts) : Prop :=
  match mws with
  | [] => True
  | fn :: rest =>
      ∃ nextOpts' k,
        fn (link_args opts nextOpts) = AwaitNext nextOpts' k
        ∧ (∀ v, ∃ o, k v = Settle o)
        ∧ once_along opts rest nextOpts'
  end.

(** On this call, each of [mws], entered in turn starting with [nextOpts],
    returns what its one [next(...)] call resolved to. *)
Fixpoint forwards_along (opts : ProcedureCallOptions) (mws : list Middleware)
    (nextOpts : option NextOpts) : Prop :=
  match mws with
  | [] => True
  | fn :: rest =>
      ∃ nextOpts' k,
        fn (link_args opts nextOpts) = AwaitNext nextOpts' k
        ∧ (∀ v, k v = Settle (Fulfilled v))
        ∧ forwards_along opts rest nextOpts'
  end.

(** The parameter bundle the middleware after [pre] is entered with on this
    call, and the continuation it is handed when [post] follows it. *)
Definition args_after (opts : ProcedureCallOptions) (pre : list Middleware)
  : MwArgs :=
  link_args opts (pass_through opts pre None).

Definition next_after (this : Procedure) (opts : ProcedureCallOptions)
    (pre post : list Middleware) : option NextFn :=
  link opts ((userFn <$> post) ++ [terminal this opts]) (S (length pre)).

(** The outcome of the body of [fn], placed after [pre] and before [post],
    on this call. *)
Definition outcome_of (this : Procedure) (opts : ProcedureCallOptions)
    (pre : list Middleware) (fn : Middleware) (post : list Middleware)
  : Outcome Value :=
  value_of (userFn fn (args_after opts pre) (next_after this opts pre post)).

(** What every invocation of a chain function is given as [type] and
    [path]. *)
Definition forwards_type_and_path (opts : ProcedureCallOptions) (n : nat)
    (e : Event) : Prop :=
  match e with
  | EvFn i a => i ≤ n ∧ mw_type a = type opts ∧ mw_path a = path opts
  | _ => True
  end.

(** A validator value that is not [null] or [undefined]. *)
Definition not_nullish (parser : Parser) : Prop :=
  match parser with
  | ParserData v => nullish v = false
  | _ => True
  end.

(** A procedure whose output validator rejects everything. *)
Definition rejecting_output_procedure (mws : list Middleware) : Procedure :=
  mkProcedure mws sample_resolver (ParserFunction string_parser)
    string_parser
    (ParserObject None (Some (fun _ => Rejected (VNum 9))) None None)
    (fun _ => Rejected (VNum 9)).

Definition fallback_result : Value :=
  VObj [("ok", VBool true); ("data", VStr "fallback")].

Definition number_opts : ProcedureCallOptions :=
  mkCallOptions VNull (VNum 5) "greet" query.

(** A middleware that awaits [next()] and then throws [e]. *)
Definition mw_throw_after (e : Value) : Middleware :=
  fun _ => AwaitNext None (fun _ => Settle (Rejected e)).

(** What [next(nextOpts)] resolves to for the last declared middleware. *)
Definition last_next_value (this : Procedure) (opts : ProcedureCallOptions)
    (nextOpts : option NextOpts) : Value :=
  settle_link (value_of (terminal this opts (link_args opts nextOpts) None)).

(** The [ctx] a link is entered with when its predecessor hands it
    [nextOpts]. *)
Definition ctx_given (opts : ProcedureCallOptions)
    (nextOpts : option NextOpts) : Value :=
  match nextOpts with
  | Some o => next_ctx o
  | None => ctx opts
  end.

(** ** Basic facts about [Run] and the continuations *)

Section RunFacts.
Context {A B : Type}.

Lemma value_of_bind (m : Run A) (f : A → Run B) :
  value_of (bind m f) = value_of (f (value_of m)).
Proof. reflexivity. Qed.

Lemma trace_of_bind (m : Run A) (f : A → Run B) :
  trace_of (bind m f) = trace_of m ++ trace_of (f (value_of m)).
Proof. reflexivity. Qed.

End RunFacts.

Lemma getErrorFromUnknown_classified e :
  is_TRPCError e = true → getErrorFromUnknown e = e.
Proof. unfold getErrorFromUnknown. by intros ->. Qed.

Lemma getErrorFromUnknown_is_classified e :
  is_TRPCError (getErrorFromUnknown e) = true.
Proof. unfold getErrorFromUnknown. by destruct (is_TRPCError e) eqn:E. Qed.

Lemma getErrorFromUnknown_idem e :
  getErrorFromUnknown (getErrorFromUnknown e) = getErrorFromUnknown e.
Proof.
  apply getErrorFromUnknown_classified, getErrorFromUnknown_is_classified.
Qed.

Lemma nextFn_value opts fn i next nextOpts :
  value_of (nextFn opts fn i next nextOpts)
  = settle_link (value_of (fn (link_args opts nextOpts) next)).
Proof.
  unfold nextFn, wrapCallSafe, value_of, bind; simpl.
  destruct (fn _ _) as [[d|e] t]; simpl; [done|].
  by rewrite getErrorFromUnknown_idem.
Qed.

Lemma nextFn_trace opts fn i next nextOpts :
  trace_of (nextFn opts fn i next nextOpts)
  = EvFn i (link_args opts nextOpts)
      :: trace_of (fn (link_args opts nextOpts) next).
Proof.
  unfold nextFn, wrapCallSafe, trace_of, bind; simpl.
  destruct (fn _ _) as [[d|e] t]; simpl; by rewrite !app_nil_r.
Qed.

Lemma link_nil opts i : link opts [] i = None.
Proof. reflexivity. Qed.

Lemma link_cons opts fn rest i :
  link opts (fn :: rest) i = Some (nextFn opts fn i (link opts rest (S i))).
Proof. reflexivity. Qed.

(** [nextFns[j]], read from the whole array as the source does, is the
    continuation of the suffix that starts at [j]. *)
Lemma nextFns_lookup opts fns i j :
  nextFns opts fns i !! j = link opts (drop j fns) (i + j).
Proof.
  revert i j. induction fns as [|fn rest IH]; intros i j.
  - by destruct j.
  - destruct j as [|j].
    + rewrite Nat.add_0_r. reflexivity.
    + simpl. rewrite IH. f_equal. lia.
Qed.

(** The array as line 163 builds it: the continuation at [i] runs the
    function at [i] and hands it [nextFns[i + 1]], read from the same
    array. *)
Lemma nextFns_spec opts fns i fn :
  fns !! i = Some fn →
  nextFns opts fns 0 !! i
  = Some (nextFn opts fn i (nextFns opts fns 0 !! S i)).
Proof.
  intros Hi. rewrite !nextFns_lookup, !Nat.add_0_l.
  rewrite (drop_S _ _ _ Hi). apply link_cons.
Qed.

Lemma runMiddleware_await nextOpts k nf :
  runMiddleware (AwaitNext nextOpts k) (Some nf)
  = bind (nf nextOpts) (fun res => runMiddleware (k res) (Some nf)).
Proof. reflexivity. Qed.

(** The chain of a procedure always has a first continuation. *)
Lemma chain_head this opts :
  ∃ fn rest, middlewaresWithResolver this opts = fn :: rest.
Proof.
  unfold middlewaresWithResolver.
  destruct (middlewares this); simpl; eauto.
Qed.

Lemma chain_result_link this opts :
  ∃ next0, link opts (middlewaresWithResolver this opts) 0 = Some next0
    ∧ chain_result this opts
      = (Fulfilled (value_of (next0 None)), trace_of (next0 None)).
Proof.
  destruct (chain_head this opts) as (fn & rest & E).
  unfold chain_result. fold (link opts (middlewaresWithResolver this opts) 0).
  rewrite E, link_cons. eexists. split; [done|].
  unfold bind, ret, value_of, trace_of. simpl. by rewrite app_nil_r.
Qed.

Lemma call_link this opts :
  ∃ next0, link opts (middlewaresWithResolver this opts) 0 = Some next0
    ∧ value_of (call this opts) = conclude (value_of (next0 None))
    ∧ trace_of (call this opts) = trace_of (next0 None).
Proof.
  destruct (chain_result_link this opts) as (next0 & E & C).
  exists next0. split; [done|].
  unfold call, conclude, bind_await. rewrite C.
  unfold bind, value_of, trace_of; simpl.
  destruct (negb (truthy _)); simpl; [by rewrite app_nil_r|].
  destruct (negb (truthy (getProp "ok" _))); simpl; by rewrite app_nil_r.
Qed.

(** ** Traces of middleware bodies *)

(** Whatever holds of the empty trace, of every trace of the continuation
    and of concatenations holds of the trace of a middleware body. *)
Lemma runMiddleware_trace_closed (Q : list Event → Prop) body next :
  Q [] →
  (∀ t t', Q t → Q t' → Q (t ++ t')) →
  (∀ nf nextOpts, next = Some nf → Q (trace_of (nf nextOpts))) →
  Q (trace_of (runMiddleware body next)).
Proof.
  intros Hnil Happ Hnext.
  induction body as [o|nextOpts k IH]; simpl; [done|].
  destruct next as [nf|]; [|done].
  rewrite trace_of_bind. apply Happ; [by apply Hnext|apply IH].
Qed.

Lemma forwards_calls_next_once fn : forwards fn → calls_next_once fn.
Proof.
  intros H args. destruct (H args) as (no & k & E & Hk).
  exists no, k. split; [done|]. intros v. eauto.
Qed.

(** A middleware that awaits [next] once: its continuation's trace follows
    its own invocation, and nothing else is recorded. *)
Lemma once_link_trace opts fn i nf nextOpts :
  calls_next_once fn →
  trace_of (nextFn opts (userFn fn) i (Some nf) nextOpts)
  = EvFn i (link_args opts nextOpts)
      :: trace_of (nf (pass_through opts [fn] nextOpts)).
Proof.
  intros H. rewrite nextFn_trace. f_equal.
  unfold userFn. simpl.
  destruct (H (link_args opts nextOpts)) as (no & k & -> & Hk).
  rewrite runMiddleware_await, trace_of_bind.
  destruct (Hk (value_of (nf no))) as [o ->].
  simpl. by rewrite app_nil_r.
Qed.

(** A forwarding middleware resolves to what its continuation resolved to. *)
Lemma forward_link_value opts fn i nf nextOpts :
  forwards fn →
  value_of (nextFn opts (userFn fn) i (Some nf) nextOpts)
  = value_of (nf (pass_through opts [fn] nextOpts)).
Proof.
  intros H. rewrite nextFn_value.
  unfold userFn. simpl.
  destruct (H (link_args opts nextOpts)) as (no & k & -> & Hk).
  rewrite runMiddleware_await, value_of_bind, Hk. reflexivity.
Qed.

Lemma pass_through_cons opts fn rest nextOpts :
  calls_next_once fn →
  pass_through opts (fn :: rest) nextOpts
  = pass_through opts rest (pass_through opts [fn] nextOpts).
Proof.
  intros H. simpl.
  by destruct (H (link_args opts nextOpts)) as (no & k & -> & _).
Qed.

Lemma pass_events_cons opts fn rest i nextOpts :
  calls_next_once fn →
  pass_events opts (fn :: rest) i nextOpts
  = EvFn i (link_args opts nextOpts)
      :: pass_events opts rest (S i) (pass_through opts [fn] nextOpts).
Proof.
  intros H. simpl.
  by destruct (H (link_args opts nextOpts)) as (no & k & -> & _).
Qed.

(** Through middlewares that each await [next] once, the trace is their
    invocations in order followed by the trace of the link after them. *)
Lemma pass_trace opts mws fn0 rest0 :
  Forall calls_next_once mws →
  ∀ i, ∃ f,
    link opts ((userFn <$> mws) ++ fn0 :: rest0) i = Some f
    ∧ ∀ nextOpts,
        trace_of (f nextOpts)
        = pass_events opts mws i nextOpts
          ++ trace_of (nextFn opts fn0 (i + length mws)
                         (link opts rest0 (S (i + length mws)))
                         (pass_through opts mws nextOpts)).
Proof.
  induction 1 as [|fn mws Hfn _ IH]; intros i.
  - simpl. rewrite link_cons, Nat.add_0_r. eauto.
  - destruct (IH (S i)) as (f' & Ef' & Hf').
    rewrite fmap_cons, <- app_comm_cons, link_cons, Ef'.
    eexists. split; [done|].
    intros no. rewrite once_link_trace by done.
    rewrite pass_events_cons, (pass_through_cons _ _ mws) by done.
    rewrite Hf'. simpl length.
    replace (S i + length mws) with (i + S (length mws)) by lia.
    reflexivity.
Qed.

(** Through forwarding middlewares, the result is that of the link after
    them. *)
Lemma pass_value opts mws fn0 rest0 :
  Forall forwards mws →
  ∀ i, ∃ f,
    link opts ((userFn <$> mws) ++ fn0 :: rest0) i = Some f
    ∧ ∀ nextOpts,
        value_of (f nextOpts)
        = value_of (nextFn opts fn0 (i + length mws)
                      (link opts rest0 (S (i + length mws)))
                      (pass_through opts mws nextOpts)).
Proof.
  induction 1 as [|fn mws Hfn _ IH]; intros i.
  - simpl. rewrite link_cons, Nat.add_0_r. eauto.
  - destruct (IH (S i)) as (f' & Ef' & Hf').
    rewrite fmap_cons, <- app_comm_cons, link_cons, Ef'.
    eexists. split; [done|].
    intros no. rewrite forward_link_value by done.
    rewrite (pass_through_cons _ _ mws) by by apply forwards_calls_next_once.
    rewrite Hf'. simpl length.
    by replace (S i + length mws) with (i + S (length mws)) by lia.
Qed.

(** ** The synthetic last middleware, case by case *)

Lemma terminal_unfold this opts args next :
  terminal this opts args next =
  match parseInputFn this (rawInput opts) with
  | Rejected cause =>
      (Rejected (new_TRPCError "BAD_REQUEST" "Input validation failed" cause),
       [EvParseInput (rawInput opts)])
  | Fulfilled input =>
      let arg := resolver_arg opts (mw_ctx args) input in
      match resolver this arg with
      | Rejected e =>
          (Rejected e, [EvParseInput (rawInput opts); EvResolver arg])
      | Fulfilled rawOutput =>
          match parseOutputFn this rawOutput with
          | Rejected cause =>
              (Rejected (new_TRPCError "INTERNAL_SERVER_ERROR"
                           "Output validation failed" cause),
               [EvParseInput (rawInput opts); EvResolver arg;
                EvParseOutput rawOutput])
          | Fulfilled data =>
              (Fulfilled (VObj [("marker", middlewareMarker);
                                ("ok", VBool true); ("data", data);
                                ("ctx", mw_ctx args)]),
               [EvParseInput (rawInput opts); EvResolver arg;
                EvParseOutput rawOutput])
          end
      end
  end.
Proof.
  unfold terminal, parseInput, parseOutput, bind_await, bind, emit, ret.
  simpl.
  destruct (parseInputFn this (rawInput opts)) as [inp|c]; simpl; [|done].
  destruct (resolver this _) as [out|e]; simpl; [|done].
  destruct (parseOutputFn this out) as [d|c]; simpl; done.
Qed.

(** ** Induction over the chain of a call *)

(** A family [Q i] of trace properties holds of the trace of [call] at
    [i = 0] as soon as each [Q i] holds of the empty trace and of
    concatenations, is carried from the body of a middleware to its
    invocation, and holds of the invocation of the synthetic function. *)
Lemma chain_trace_ind this opts (Q : nat → list Event → Prop) :
  (∀ i, Q i []) →
  (∀ i t t', Q i t → Q i t' → Q i (t ++ t')) →
  (∀ i nextOpts body,
      i < length (middlewares this) →
      Q (S i) body → Q i (EvFn i (link_args opts nextOpts) :: body)) →
  (∀ nextOpts,
      Q (length (middlewares this))
        (EvFn (length (middlewares this)) (link_args opts nextOpts)
           :: trace_of (terminal this opts (link_args opts nextOpts) None))) →
  Q 0 (trace_of (call this opts)).
Proof.
  intros Hnil Happ Hstep Hterm.
  destruct (call_link this opts) as (next0 & E & _ & ->).
  revert E. unfold middlewaresWithResolver.
  set (n := length (middlewares this)) in *.
  assert (G : ∀ mws i f, i + length mws = n →
              link opts ((userFn <$> mws) ++ [terminal this opts]) i = Some f →
              ∀ nextOpts, Q i (trace_of (f nextOpts))).
  { induction mws as [|fn mws IH]; intros i f Hi Hf no.
    - simpl in Hi, Hf. rewrite link_cons in Hf. injection Hf as <-.
      rewrite nextFn_trace, link_nil.
      replace i with n by lia. apply Hterm.
    - rewrite fmap_cons, <- app_comm_cons, link_cons in Hf.
      injection Hf as <-. rewrite nextFn_trace.
      simpl in Hi. apply Hstep; [lia|].
      unfold userFn. apply runMiddleware_trace_closed; [done|by apply Happ|].
      intros nf no' Hnf. apply IH; [lia|done]. }
  intros E. apply (G (middlewares this) 0 next0); [done|done].
Qed.

(** A position in a concatenation lies in one of its two parts. *)
Lemma split_app_inv {A} (t t' t1 t2 : list A) e :
  t ++ t' = t1 ++ e :: t2 →
  (∃ t2', t = t1 ++ e :: t2' ∧ t2 = t2' ++ t')
  ∨ (∃ t1', t' = t1' ++ e :: t2 ∧ t1 = t ++ t1').
Proof.
  revert t1. induction t as [|x t IH]; intros t1 H.
  - right. exists t1. by simpl in *.
  - destruct t1 as [|y t1]; simpl in H.
    + injection H as -> <-. left. by exists t.
    + injection H as -> H. destruct (IH _ H) as [(t2' & -> & ->)|(t1' & -> & ->)].
      * left. by exists t2'.
      * right. by exists t1'.
Qed.





(** ** Order of execution *)


Lemma resolver_args_app t t' :
  resolver_args (t ++ t') = resolver_args t ++ resolver_args t'.
Proof. apply omap_app. Qed.

Lemma fn_indices_pass_events opts mws :
  Forall calls_next_once mws →
  ∀ i nextOpts, fn_indices (pass_events opts mws i nextOpts) = seq i (length mws).
Proof.
  induction 1 as [|fn mws Hfn _ IH]; intros i no; [done|].
  rewrite pass_events_cons by done. simpl. f_equal. apply IH.
Qed.

Lemma resolver_args_pass_events opts mws i nextOpts :
  resolver_args (pass_events opts mws i nextOpts) = [].
Proof.
  revert i nextOpts. induction mws as [|fn mws IH]; intros i no; [done|].
  simpl. destruct (fn _); [done|]. apply IH.
Qed.

Lemma fn_indices_terminal this opts a next :
  fn_indices (trace_of (terminal this opts a next)) = [].
Proof.
  rewrite terminal_unfold.
  destruct (parseInputFn _ _); [|done]. simpl.
  destruct (resolver _ _); [|done].
  by destruct (parseOutputFn _ _).
Qed.

(** Past a middleware that settles without calling [next], nothing runs. *)
Lemma skip_bounds opts pre fn rest :
  skips_next fn →
  ∀ i f, link opts ((userFn <$> pre) ++ userFn fn :: rest) i = Some f →
    ∀ nextOpts,
      Forall (fun e => ∃ j a, e = EvFn j a ∧ j ≤ i + length pre)
        (trace_of (f nextOpts)).
Proof.
  intros Hskip. induction pre as [|g pre IH]; intros i f Hf no.
  - simpl in Hf. rewrite link_cons in Hf. injection Hf as <-.
    rewrite nextFn_trace. unfold userFn.
    destruct (Hskip (link_args opts no)) as [o ->]. simpl.
    repeat constructor. eexists _, _. split; [done|lia].
  - rewrite fmap_cons, <- app_comm_cons, link_cons in Hf. injection Hf as <-.
    rewrite nextFn_trace. constructor.
    + eexists _, _. split; [done|lia].
    + unfold userFn.
      apply (runMiddleware_trace_closed
               (Forall (fun e => ∃ j a, e = EvFn j a ∧ j ≤ i + length (g :: pre)))).
      * constructor.
      * intros t t' Ht Ht'. by apply Forall_app.
      * intros nf no' Hnf. eapply Forall_impl; [by apply (IH (S i))|].
        intros e (j & a & -> & Hj). eexists _, _. split; [done|]. simpl. lia.
Qed.

(** ** Errors across the chain *)

Lemma conclude_failure e :
  conclude (VObj [("ok", VBool false); ("error", e)]) = Rejected e.
Proof. reflexivity. Qed.

Lemma settle_link_classified e :
  is_TRPCError e = true →
  settle_link (Rejected e) = VObj [("ok", VBool false); ("error", e)].
Proof. intros H. simpl. by rewrite getErrorFromUnknown_classified. Qed.

(** The call's outcome when every middleware before [fn0] forwards. *)
Lemma call_through_forwarders this opts pre fn0 rest0 :
  middlewaresWithResolver this opts = (userFn <$> pre) ++ fn0 :: rest0 →
  Forall forwards pre →
  value_of (call this opts)
  = conclude
      (settle_link
         (value_of (fn0 (link_args opts (pass_through opts pre None))
                      (link opts rest0 (S (length pre)))))).
Proof.
  intros Efns Hpre.
  destruct (call_link this opts) as (next0 & E & -> & _).
  rewrite Efns in E.
  destruct (pass_value opts pre fn0 rest0 Hpre 0) as (f & Ef & Hf).
  rewrite Ef in E. injection E as <-.
  by rewrite Hf, nextFn_value, Nat.add_0_l.
Qed.

Lemma chain_split_middleware this opts pre fn post :
  middlewares this = pre ++ fn :: post →
  middlewaresWithResolver this opts
  = (userFn <$> pre) ++ userFn fn :: ((userFn <$> post) ++ [terminal this opts]).
Proof.
  intros E. unfold middlewaresWithResolver.
  by rewrite E, fmap_app, fmap_cons, <- app_assoc, <- app_comm_cons.
Qed.

(** ** What the resolver is invoked with *)

(** Every invocation of the resolver comes right after the input was parsed,
    and its argument is built from the call's options, the context of the
    synthetic function, and the parsed input. *)
Lemma resolver_event_inv this opts t1 arg t2 :
  trace_of (call this opts) = t1 ++ EvResolver arg :: t2 →
  ∃ t0 nextOpts parsed,
    t1 = t0 ++ [EvParseInput (rawInput opts)]
    ∧ parseInputFn this (rawInput opts) = Fulfilled parsed
    ∧ arg = resolver_arg opts (mw_ctx (link_args opts nextOpts)) parsed.
Proof.
  revert t1 arg t2.
  apply (chain_trace_ind this opts
    (fun _ t => ∀ t1 arg t2, t = t1 ++ EvResolver arg :: t2 →
       ∃ t0 nextOpts parsed,
         t1 = t0 ++ [EvParseInput (rawInput opts)]
         ∧ parseInputFn this (rawInput opts) = Fulfilled parsed
         ∧ arg = resolver_arg opts (mw_ctx (link_args opts nextOpts)) parsed)).
  - intros _ [|??] ?? H; discriminate H.
  - intros _ t t' H H' t1 arg t2 E.
    destruct (split_app_inv _ _ _ _ _ E) as [(t2' & -> & ->)|(t1' & -> & ->)].
    + by apply (H t1 arg t2').
    + destruct (H' t1' arg t2 eq_refl) as (t0 & no & parsed & -> & ? & ?).
      exists (t ++ t0), no, parsed. by rewrite app_assoc.
  - intros i no body _ H t1 arg t2 E.
    destruct t1 as [|x t1]; simpl in E; [discriminate E|].
    injection E as <- ->.
    destruct (H t1 arg t2 eq_refl) as (t0 & no' & parsed & -> & ? & ?).
    by exists (EvFn i (link_args opts no) :: t0), no', parsed.
  - intros no t1 arg t2. rewrite terminal_unfold.
    destruct (parseInputFn this (rawInput opts)) as [parsed|c] eqn:Hparse.
    2: { intros E. destruct t1 as [|? [|? [|??]]]; discriminate E. }
    cbn zeta.
    assert (G : ∀ tail,
              (∀ t1' t2', tail ≠ t1' ++ EvResolver arg :: t2') →
              EvFn (length (middlewares this)) (link_args opts no)
                :: EvParseInput (rawInput opts)
                :: EvResolver
                     (resolver_arg opts (mw_ctx (link_args opts no)) parsed)
                :: tail = t1 ++ EvResolver arg :: t2 →
              ∃ t0 nextOpts parsed0,
                t1 = t0 ++ [EvParseInput (rawInput opts)]
                ∧ Fulfilled parsed = Fulfilled parsed0
                ∧ arg = resolver_arg opts (mw_ctx (link_args opts nextOpts))
                          parsed0).
    { intros tail Htail E.
      destruct t1 as [|x1 [|x2 [|x3 t1]]]; simplify_eq/=.
      - by eexists [_], no, parsed.
      - by destruct (Htail t1 t2). }
    destruct (resolver this _) as [out|err]; cbn [trace_of snd].
    2: { apply G. intros [|??] ? H; discriminate H. }
    destruct (parseOutputFn this out) as [d|c]; cbn [trace_of snd];
      apply G; intros [|? [|??]] ? H; discriminate H.
Qed.

(** The resolver is reached, once, when every middleware awaits [next]
    once and the input validator accepts. *)
Lemma resolver_reached this opts parsed :
  Forall calls_next_once (middlewares this) →
  parseInputFn this (rawInput opts) = Fulfilled parsed →
  resolver_args (trace_of (call this opts))
  = [resolver_arg opts
       (mw_ctx (link_args opts (pass_through opts (middlewares this) None)))
       parsed].
Proof.
  intros Honce Hparse.
  destruct (call_link this opts) as (next0 & E & _ & ->).
  unfold middlewaresWithResolver in E.
  destruct (pass_trace opts (middlewares this) (terminal this opts) []
              Honce 0) as (f & Ef & Hf).
  rewrite Ef in E. injection E as <-.
  rewrite Hf, nextFn_trace, link_nil, resolver_args_app,
    resolver_args_pass_events, terminal_unfold, Hparse.
  cbn zeta. destruct (resolver this _) as [out|err]; [|done].
  by destruct (parseOutputFn this out).
Qed.

(** The resolver is not reached when the input validator throws. *)
Lemma resolver_not_reached this opts cause :
  parseInputFn this (rawInput opts) = Rejected cause →
  resolver_args (trace_of (call this opts)) = [].
Proof.
  intros Hparse.
  destruct (resolver_args (trace_of (call this opts))) as [|arg l] eqn:E;
    [done|].
  assert (Hin : arg ∈ resolver_args (trace_of (call this opts)))
    by (rewrite E; apply elem_of_cons; by left).
  apply list_elem_of_omap in Hin as (e & Hin & He).
  destruct e; simplify_eq.
  apply list_elem_of_split in Hin as (t1 & t2 & Ht).
  destruct (resolver_event_inv _ _ _ _ _ Ht) as (? & ? & ? & _ & Hp & _).
  congruence.
Qed.

Lemma new_Procedure_fields env o this :
  new_Procedure env o = Fulfilled this →
  middlewares this = opt_middlewares o
  ∧ resolver this = opt_resolver o
  ∧ inputParser this = opt_inputParser o
  ∧ outputParser this = opt_outputParser o
  ∧ getParseFn (opt_inputParser o) = Fulfilled (parseInputFn this)
  ∧ (if parser_truthy (opt_outputParser o) && negb (skip_output_validation env)
     then getParseFn (opt_outputParser o) = Fulfilled (parseOutputFn this)
     else parseOutputFn this = identity_parse).
Proof.
  unfold new_Procedure.
  destruct (getParseFn (opt_inputParser o)) as [inFn|e]; [|done].
  destruct (parser_truthy _ && negb _).
  - destruct (getParseFn (opt_outputParser o)) as [outFn|e]; [|done].
    by intros [= <-].
  - by intros [= <-].
Qed.

Lemma resolver_args_split t arg :
  arg ∈ resolver_args t → ∃ t1 t2, t = t1 ++ EvResolver arg :: t2.
Proof.
  intros Hin. apply list_elem_of_omap in Hin as (e & Hin & He).
  destruct e; simplify_eq. by apply list_elem_of_split.
Qed.

(** C10. Whenever the resolver is invoked, its argument carries, besides
    [ctx], [input] and [type], the call's [path] and the raw input: [input]
    is the parsed value while [rawInput] still reads the value the call was
    given.  The resolver is invoked when the validator accepts and every
    middleware awaits [next] once. *)
Theorem resolver_receives_call_options (this : Procedure)
    (opts : ProcedureCallOptions) :
  let t := trace_of (call this opts) in
  (∀ arg, arg ∈ resolver_args t →
     getProp "rawInput" arg = rawInput opts
     ∧ getProp "path" arg = VStr (path opts)
     ∧ getProp "type" arg = ProcedureType_value (type opts)
     ∧ (∃ nextOpts, getProp "ctx" arg = mw_ctx (link_args opts nextOpts))
     ∧ parseInputFn this (rawInput opts) = Fulfilled (getProp "input" arg))
  ∧ (∀ parsed,
       parseInputFn this (rawInput opts) = Fulfilled parsed →
       Forall calls_next_once (middlewares this) →
       ∃ arg, resolver_args t = [arg]).
Proof.
  intros t. split.
  - intros arg Hin.
    destruct (resolver_args_split _ _ Hin) as (t1 & t2 & E).
    destruct (resolver_event_inv _ _ _ _ _ E) as (t0 & no & parsed & _ & ? & ->).
    repeat split; [by exists no|done].
  - intros parsed Hparse Honce. eexists. by apply resolver_reached.
Qed.

Lemma resolver_receives_call_options_witness :
  ∃ arg,
    resolver_args (trace_of (call (sample_procedure []) sample_opts)) = [arg]
    ∧ getProp "rawInput" arg = VStr "hi"
    ∧ getProp "input" arg = VStr "hi!"
    ∧ getProp "path" arg = VStr "greet".
Proof.
  destruct (resolver_receives_call_options (sample_procedure []) sample_opts)
    as [Hall Hsome].
  destruct (Hsome (VStr "hi!") eq_refl ltac:(constructor)) as [arg Harg].
  exists arg. split; [exact Harg|].
  assert (Hin : arg ∈ resolver_args
                        (trace_of (call (sample_procedure []) sample_opts))).
  { rewrite Harg. apply elem_of_cons. by left. }
  destruct (Hall arg Hin) as (Hraw & Hpath & _ & _ & Hinput).
  repeat split; [exact Hraw| |exact Hpath].
  simpl in Hinput. by injection Hinput as <-.
Defined.

(** ** Context overrides *)

(** The continuation at the index of a declared middleware. *)
Lemma link_at_middleware this opts i fn :
  middlewares this !! i = Some fn →
  ∃ g rest,
    nextFns opts (middlewaresWithResolver this opts) 0 !! i
    = Some (nextFn opts (userFn fn) i
              (Some (nextFn opts g (S i) (link opts rest (S (S i)))))).
Proof.
  intros Hi.
  pose proof (take_drop_middle _ _ _ Hi) as Esplit.
  pose proof (lookup_lt_Some _ _ _ Hi) as Hlt.
  rewrite nextFns_lookup, Nat.add_0_l.
  rewrite (chain_split_middleware this opts _ _ _ (eq_sym Esplit)).
  rewrite drop_app_length', link_cons
    by (rewrite length_fmap, length_take; lia).
  destruct (drop (S i) (middlewares this)) as [|g post].
  - exists (terminal this opts), []. by rewrite fmap_nil, app_nil_l, link_cons.
  - exists (userFn g), ((userFn <$> post) ++ [terminal this opts]).
    by rewrite fmap_cons, <- app_comm_cons, link_cons.
Qed.

(** C8. The first function of the chain receives the call's own [ctx].
    When the middleware at index [i], entered with any [nextOpts0], awaits
    [next(nextOpts)], the function at [i + 1] receives the [ctx] of
    [nextOpts] when one is given and the call's own [ctx] otherwise,
    whatever context the middleware at [i] was itself entered with. *)
Theorem ctx_override_lasts_one_hop (this : Procedure)
    (opts : ProcedureCallOptions) :
  (∃ t, trace_of (call this opts)
        = EvFn 0 {| mw_ctx := ctx opts; mw_type := type opts;
                    mw_path := path opts; mw_rawInput := rawInput opts |} :: t)
  ∧ (∀ i fn nextOpts0 nextOpts k,
       middlewares this !! i = Some fn →
       fn (link_args opts nextOpts0) = AwaitNext nextOpts k →
       ∃ f t,
         nextFns opts (middlewaresWithResolver this opts) 0 !! i = Some f
         ∧ trace_of (f nextOpts0)
           = EvFn i (link_args opts nextOpts0)
             :: EvFn (S i)
                  {| mw_ctx := match nextOpts with
                               | Some o => next_ctx o
                               | None => ctx opts
                               end;
                     mw_type := type opts;
                     mw_path := path opts;
                     mw_rawInput := rawInput opts |}
             :: t).
Proof.
  split.
  - destruct (call_link this opts) as (next0 & E & _ & ->).
    destruct (chain_head this opts) as (fn & rest & Efns).
    rewrite Efns, link_cons in E. injection E as <-.
    rewrite nextFn_trace. eauto.
  - intros i fn no0 no k Hi Hbody.
    destruct (link_at_middleware this opts i fn Hi) as (g & rest & E).
    eexists _, _. split; [exact E|].
    rewrite nextFn_trace. unfold userFn at 1.
    rewrite Hbody, runMiddleware_await, trace_of_bind, nextFn_trace.
    reflexivity.
Qed.

Lemma ctx_override_lasts_one_hop_witness :
  ∃ f t,
    nextFns sample_opts
      (middlewaresWithResolver
         (sample_procedure [mw_with_ctx (VNum 1); mw_pass]) sample_opts) 0 !! 1
    = Some f
    ∧ trace_of (f (Some (mkNextOpts (VNum 1))))
      = EvFn 1 (mkMwArgs (VNum 1) query "greet" (VStr "hi"))
        :: EvFn 2 (mkMwArgs (VStr "ctx0") query "greet" (VStr "hi")) :: t.
Proof.
  apply (proj2 (ctx_override_lasts_one_hop
                  (sample_procedure [mw_with_ctx (VNum 1); mw_pass])
                  sample_opts)
           1 mw_pass (Some (mkNextOpts (VNum 1))) None
           (fun res => Settle (Fulfilled res)));
    reflexivity.
Defined.

(** ** A middleware that returns without calling [next] *)

Lemma chain_result_through_forwarders this opts pre fn0 rest0 :
  middlewaresWithResolver this opts = (userFn <$> pre) ++ fn0 :: rest0 →
  Forall forwards pre →
  value_of (chain_result this opts)
  = Fulfilled
      (settle_link
         (value_of (fn0 (link_args opts (pass_through opts pre None))
                      (link opts rest0 (S (length pre)))))).
Proof.
  intros Efns Hpre.
  destruct (chain_result_link this opts) as (next0 & E & ->).
  rewrite Efns in E.
  destruct (pass_value opts pre fn0 rest0 Hpre 0) as (f & Ef & Hf).
  rewrite Ef in E. injection E as <-.
  cbn [value_of fst]. by rewrite Hf, nextFn_value, Nat.add_0_l.
Qed.

(** ** Output validation *)

(** The call's outcome once the resolver has returned, the middlewares
    forwarding. *)
Lemma call_after_resolver this opts parsed rawOutput :
  Forall forwards (middlewares this) →
  parseInputFn this (rawInput opts) = Fulfilled parsed →
  resolver this
    (resolver_arg opts (ctx_reaching_resolver opts (middlewares this)) parsed)
  = Fulfilled rawOutput →
  value_of (call this opts)
  = match parseOutputFn this rawOutput with
    | Fulfilled data => Fulfilled data
    | Rejected cause =>
        Rejected
          (VTRPCError "INTERNAL_SERVER_ERROR" "Output validation failed" cause)
    end.
Proof.
  intros Hfw Hparse Hres.
  assert (Efns : middlewaresWithResolver this opts
                 = (userFn <$> middlewares this) ++ terminal this opts :: [])
    by done.
  rewrite (call_through_forwarders this opts _ _ _ Efns Hfw).
  rewrite terminal_unfold, Hparse. cbn zeta.
  unfold ctx_reaching_resolver in Hres. rewrite Hres.
  by destruct (parseOutputFn this rawOutput).
Qed.

(** ** Procedures without an input validator *)

Lemma createProcedure_no_input env o this :
  createProcedure env o = Fulfilled this →
  declared_input o = None →
  middlewares this = []
  ∧ resolver this = resolve o
  ∧ inputParser this = ParserFunction no_input_parser
  ∧ parseInputFn this = no_input_parser.
Proof.
  unfold createProcedure. intros Hnew Hdecl. rewrite Hdecl in Hnew.
  apply new_Procedure_fields in Hnew as (? & ? & ? & _ & Hin & _).
  simpl in *. by injection Hin as <-.
Qed.

(** C5. A procedure created without an input validator, called with a raw
    input that is [undefined] or [null], invokes its resolver with [input]
    [undefined], and the call fulfils when the resolver returns and the
    output is accepted; called with any other raw input it does not invoke
    the resolver and rejects with a [BAD_REQUEST] error. *)
Theorem no_input_validator (env : Env) (o : CreateProcedureOptions)
    (this : Procedure) (opts : ProcedureCallOptions) :
  createProcedure env o = Fulfilled this →
  declared_input o = None →
  (nullish (rawInput opts) = true →
     (∃ arg, resolver_args (trace_of (call this opts)) = [arg]
             ∧ getProp "input" arg = VUndefined
             ∧ ∀ rawOutput data,
                 resolve o arg = Fulfilled rawOutput →
                 parseOutputFn this rawOutput = Fulfilled data →
                 value_of (call this opts) = Fulfilled data))
  ∧ (nullish (rawInput opts) = false →
     resolver_args (trace_of (call this opts)) = []
     ∧ value_of (call this opts)
       = Rejected
           (VTRPCError "BAD_REQUEST" "Input validation failed"
              (VTRPCError "BAD_REQUEST" "No input expected" VUndefined))).
Proof.
  intros Hnew Hdecl.
  destruct (createProcedure_no_input env o this Hnew Hdecl)
    as (Hmws & Hres & _ & Hin).
  assert (Hfw : Forall forwards (middlewares this)) by (rewrite Hmws; constructor).
  assert (Honce : Forall calls_next_once (middlewares this))
    by (rewrite Hmws; constructor).
  split.
  - intros Hnull.
    assert (Hparse : parseInputFn this (rawInput opts) = Fulfilled VUndefined).
    { rewrite Hin. unfold no_input_parser. by rewrite Hnull. }
    eexists. split; [by apply resolver_reached|]. split; [done|].
    intros rawOutput data Hr Hout.
    rewrite (call_after_resolver this opts VUndefined rawOutput Hfw Hparse).
    + by rewrite Hout.
    + by rewrite Hres.
  - intros Hnull.
    assert (Hparse : parseInputFn this (rawInput opts)
                     = Rejected (VTRPCError "BAD_REQUEST" "No input expected"
                                   VUndefined)).
    { rewrite Hin. unfold no_input_parser. by rewrite Hnull. }
    split; [by eapply resolver_not_reached|].
    assert (Efns : middlewaresWithResolver this opts
                   = (userFn <$> middlewares this) ++ terminal this opts :: [])
      by done.
    rewrite (call_through_forwarders this opts _ _ _ Efns Hfw).
    by rewrite terminal_unfold, Hparse.
Qed.

Lemma no_input_validator_witness :
  (∃ arg,
     resolver_args
       (trace_of (call (mkProcedure [] sample_resolver
                          (ParserFunction no_input_parser) no_input_parser
                          (ParserData VUndefined) identity_parse)
                    (mkCallOptions (VStr "ctx0") VNull "ping" query)))
     = [arg] ∧ getProp "input" arg = VUndefined)
  ∧ value_of (call (mkProcedure [] sample_resolver
                      (ParserFunction no_input_parser) no_input_parser
                      (ParserData VUndefined) identity_parse)
                (mkCallOptions (VStr "ctx0") (VObj [("a", VNum 1)]) "ping" query))
    = Rejected
        (VTRPCError "BAD_REQUEST" "Input validation failed"
           (VTRPCError "BAD_REQUEST" "No input expected" VUndefined)).
Proof.
  split.
  - destruct (proj1 (no_input_validator None
                       (mkCreateOptions None (ParserData VUndefined)
                          sample_resolver)
                       _ (mkCallOptions (VStr "ctx0") VNull "ping" query)
                       eq_refl eq_refl) eq_refl) as (arg & Harg & Hinput & _).
    by exists arg.
  - apply (proj2 (no_input_validator None
                    (mkCreateOptions None (ParserData VUndefined)
                       sample_resolver)
                    _ (mkCallOptions (VStr "ctx0") (VObj [("a", VNum 1)])
                         "ping" query)
                    eq_refl eq_refl) eq_refl).
Defined.

(** ** Composition *)

Lemma inheritMiddlewares_fields env this mws p' :
  inheritMiddlewares env this mws = Fulfilled p' →
  middlewares p' = mws ++ middlewares this
  ∧ resolver p' = resolver this
  ∧ inputParser p' = inputParser this
  ∧ outputParser p' = outputParser this.
Proof.
  intros H. by apply new_Procedure_fields in H as (? & ? & ? & ? & _).
Qed.

(** Deriving from a procedure that the constructor built in the same
    environment succeeds. *)
Lemma inheritMiddlewares_total env o this mws :
  new_Procedure env o = Fulfilled this →
  ∃ p', inheritMiddlewares env this mws = Fulfilled p'.
Proof.
  intros Hnew.
  apply new_Procedure_fields in Hnew as (_ & _ & Hi & Ho & Hin & Hout).
  unfold inheritMiddlewares, new_Procedure. cbn [opt_inputParser
    opt_outputParser opt_middlewares opt_resolver].
  rewrite Hi, Ho, Hin.
  destruct (parser_truthy (opt_outputParser o) && negb (skip_output_validation env)).
  - rewrite Hout. eauto.
  - eauto.
Qed.

(** The heap constructor allocates the instance the constructor builds. *)
Lemma construct_spec env h a mws res inP outP :
  Store.arrays h !! a = Some mws →
  match new_Procedure env (mkProcedureOptions mws res inP outP) with
  | Rejected e => Store.construct env h a res inP outP = Rejected e
  | Fulfilled p =>
      ∃ r i,
        Store.construct env h a res inP outP
        = Fulfilled (r, Store.mkHeap (Store.arrays h) (<[r := i]> (Store.instances h)))
        ∧ Store.instances h !! r = None
        ∧ Store.i_middlewares i = a
        ∧ Store.read (Store.mkHeap (Store.arrays h) (<[r := i]> (Store.instances h))) r
          = Some p
  end.
Proof.
  intros Ha. unfold new_Procedure, Store.construct. simpl.
  assert (Hfresh : ∀ i,
            ∃ r, Store.alloc_instance h i
                 = (r, Store.mkHeap (Store.arrays h) (<[r := i]> (Store.instances h)))
                 ∧ Store.instances h !! r = None).
  { intros i. eexists. split; [reflexivity|].
    apply not_elem_of_dom, is_fresh. }
  destruct (getParseFn inP) as [inFn|e]; [|done].
  destruct (parser_truthy outP && negb (skip_output_validation env)).
  - destruct (getParseFn outP) as [outFn|e]; [|done].
    destruct (Hfresh (Store.mkInstance a res inP inFn outP outFn))
      as (r & -> & Hr).
    eexists r, _. repeat split; [done|].
    unfold Store.read. simpl. rewrite lookup_insert_eq. simpl.
    by rewrite Ha.
  - destruct (Hfresh (Store.mkInstance a res inP inFn outP identity_parse))
      as (r & -> & Hr).
    eexists r, _. repeat split; [done|].
    unfold Store.read. simpl. rewrite lookup_insert_eq. simpl.
    by rewrite Ha.
Qed.

(** C6. [inheritMiddlewares] on a live instance allocates a new instance
    whose middleware array is new and holds the additional middlewares
    followed by the existing ones, with the resolver and both validators of
    the source.  Every instance and every array that was live is left as it
    was: the source reads as before and a call on it runs the same chain,
    while the chain of the new instance has the prepended middlewares first.
    It succeeds whenever the source was built in the same environment. *)
Theorem inheritMiddlewares_prepends_and_preserves (env : Env)
    (h : Store.Heap) (this : Store.ref) (mws : list Middleware)
    (p : Procedure) :
  Store.read h this = Some p →
  ∃ res,
    Store.inheritMiddlewares env h this mws = Some res
    ∧ (∀ r' h', res = Fulfilled (r', h') →
        ∃ p',
          Store.read h' r' = Some p'
          ∧ inheritMiddlewares env p mws = Fulfilled p'
          ∧ middlewares p' = mws ++ middlewares p
          ∧ resolver p' = resolver p
          ∧ inputParser p' = inputParser p
          ∧ outputParser p' = outputParser p
          ∧ Store.instances h !! r' = None
          ∧ (∀ r i, Store.instances h !! r = Some i →
                    Store.instances h' !! r = Some i)
          ∧ (∀ a l, Store.arrays h !! a = Some l →
                    Store.arrays h' !! a = Some l)
          ∧ (∀ i', Store.instances h' !! r' = Some i' →
                   Store.arrays h !! Store.i_middlewares i' = None)
          ∧ Store.read h' this = Some p
          ∧ ∀ opts,
              Store.call h' this opts = Store.call h this opts
              ∧ Store.call h this opts = Some (call p opts)
              ∧ middlewaresWithResolver p' opts
                = (userFn <$> mws) ++ (userFn <$> middlewares p)
                  ++ [terminal p' opts])
    ∧ ((∃ o, new_Procedure env o = Fulfilled p) →
       ∃ r' h', res = Fulfilled (r', h')).
Proof.
  intros Hread.
  unfold Store.read in Hread.
  destruct (Store.instances h !! this) as [i|] eqn:Hi; [|done].
  simpl in Hread.
  destruct (Store.arrays h !! Store.i_middlewares i) as [existing|] eqn:Ha;
    [|done].
  simpl in Hread. injection Hread as <-.
  unfold Store.inheritMiddlewares. rewrite Hi. simpl. rewrite Ha. simpl.
  set (a := fresh (dom (Store.arrays h))).
  set (h1 := Store.mkHeap (<[a := mws ++ existing]> (Store.arrays h))
               (Store.instances h)).
  assert (Hafresh : Store.arrays h !! a = None)
    by apply not_elem_of_dom, is_fresh.
  assert (Ha1 : Store.arrays h1 !! a = Some (mws ++ existing))
    by apply lookup_insert_eq.
  pose proof (construct_spec env h1 a (mws ++ existing) (Store.i_resolver i)
                (Store.i_inputParser i) (Store.i_outputParser i) Ha1) as Hc.
  set (p := mkProcedure existing (Store.i_resolver i) (Store.i_inputParser i)
              (Store.i_parseInputFn i) (Store.i_outputParser i)
              (Store.i_parseOutputFn i)).
  change (new_Procedure env _) with (inheritMiddlewares env p mws) in Hc.
  eexists. split; [reflexivity|].
  destruct (inheritMiddlewares env p mws) as [p'|e] eqn:Hpure.
  - destruct Hc as (r & inst & Hc & Hrfresh & Hinst & Hreadnew).
    rewrite Hc. split.
    + intros r' h' [= <- <-]. exists p'.
      destruct (inheritMiddlewares_fields _ _ _ _ Hpure) as (Hm & Hr & Hip & Hop).
      assert (Hframe_i : ∀ r0 i0, Store.instances h !! r0 = Some i0 →
                (<[r := inst]> (Store.instances h1)) !! r0 = Some i0).
      { intros r0 i0 H0. rewrite lookup_insert_ne; [done|].
        intros ->. cbn in Hrfresh. congruence. }
      assert (Hframe_a : ∀ a0 l, Store.arrays h !! a0 = Some l →
                Store.arrays h1 !! a0 = Some l).
      { intros a0 l H0. cbn. rewrite lookup_insert_ne; [done|].
        intros ->. congruence. }
      assert (Hthis : Store.read
                        (Store.mkHeap (Store.arrays h1)
                           (<[r := inst]> (Store.instances h1))) this
                      = Some p).
      { unfold Store.read. cbn [Store.instances Store.arrays].
        rewrite (Hframe_i _ _ Hi). cbn [mbind option_bind].
        by rewrite (Hframe_a _ _ Ha). }
      assert (Hold : Store.read h this = Some p).
      { unfold Store.read. rewrite Hi. cbn [mbind option_bind]. by rewrite Ha. }
      split_and!; try done.
      * intros i'. cbn [Store.instances]. rewrite lookup_insert_eq.
        intros [= <-]. by rewrite Hinst.
      * intros opts. split_and!.
        -- unfold Store.call. rewrite Hold.
           change (Store.read _ this)
             with (Store.read
                     (Store.mkHeap (Store.arrays h1)
                        (<[r := inst]> (Store.instances h1))) this).
           by rewrite Hthis.
        -- unfold Store.call. by rewrite Hold.
        -- unfold middlewaresWithResolver.
           by rewrite Hm, fmap_app, <- app_assoc.
    + eauto.
  - rewrite Hc. split; [done|].
    intros [o Ho].
    destruct (inheritMiddlewares_total env o p mws Ho) as [p' Hp'].
    congruence.
Qed.

Lemma inheritMiddlewares_prepends_and_preserves_witness :
  ∃ res,
    Store.inheritMiddlewares None sample_heap 0 [mw_return VNull] = Some res
    ∧ ∃ r' h' p',
        res = Fulfilled (r', h')
        ∧ Store.read h' r' = Some p'
        ∧ middlewares p' = [mw_return VNull; mw_pass]
        ∧ Store.read h' 0 = Some (sample_procedure [mw_pass]).
Proof.
  destruct (inheritMiddlewares_prepends_and_preserves None sample_heap 0
              [mw_return VNull] (sample_procedure [mw_pass]) eq_refl)
    as (res & E & Hall & Htotal).
  exists res. split; [exact E|].
  destruct Htotal as (r' & h' & ->).
  { exists (mkProcedureOptions [mw_pass] sample_resolver
              (ParserFunction string_parser) (ParserData VUndefined)).
    reflexivity. }
  destruct (Hall r' h' eq_refl)
    as (p' & Hnew & _ & Hm & _ & _ & _ & _ & _ & _ & _ & Hold & _).
  exists r', h', p'. repeat split; [exact Hnew|exact Hm|exact Hold].
Defined.

(** ** Validators of no recognized shape *)

Lemma unrecognized_getParseFn parser :
  unrecognized parser →
  getParseFn parser
  = Rejected (match parser with
              | ParserData v =>
                  if nullish v then property_of_nullish_error
                  else no_validator_error
              | _ => no_validator_error
              end).
Proof.
  destruct parser as [f|[?|] [?|] [?|] [?|]|v]; try done.
  simpl. by destruct (nullish v).
Qed.

(** C7, as the spec has it, fails: the value thrown at construction for a
    validator object without any of the probed methods is a plain [Error],
    whose kind is not [INTERNAL_SERVER_ERROR]; and the same object declared
    as output validator does not fail construction when the skip toggle is
    ["true"]. *)
Lemma unrecognized_validator_not_classified_counterexample :
  unrecognized shapeless_parser
  ∧ new_Procedure None shapeless_options = Rejected no_validator_error
  ∧ kind_of no_validator_error ≠ Some "INTERNAL_SERVER_ERROR"
  ∧ ∃ p, new_Procedure (Some "true")
           (mkProcedureOptions [] sample_resolver
              (ParserFunction string_parser) shapeless_parser)
         = Fulfilled p.
Proof.
  split_and!; [exact I|reflexivity|discriminate|].
  eexists. reflexivity.
Qed.

(** The call's trace when every middleware awaits [next] once. *)
Lemma call_trace_once this opts :
  Forall calls_next_once (middlewares this) →
  trace_of (call this opts)
  = pass_events opts (middlewares this) 0 None
    ++ terminal_events this opts (length (middlewares this))
         (pass_through opts (middlewares this) None).
Proof.
  intros Honce.
  destruct (call_link this opts) as (next0 & E & _ & ->).
  unfold middlewaresWithResolver in E.
  destruct (pass_trace opts (middlewares this) (terminal this opts) []
              Honce 0) as (f & Ef & Hf).
  rewrite Ef in E. injection E as <-.
  by rewrite Hf, nextFn_trace, link_nil, Nat.add_0_l.
Qed.

(** On the success path the caller gets the value the output parse function
    returned, and the input validator, the resolver and the output validator
    are each invoked once, in this order, after the middlewares. *)
Theorem call_fulfils_with_parsed_output (this : Procedure)
    (opts : ProcedureCallOptions) (parsed rawOutput data : Value) :
  Forall forwards (middlewares this) →
  parseInputFn this (rawInput opts) = Fulfilled parsed →
  resolver this
    (resolver_arg opts (ctx_reaching_resolver opts (middlewares this)) parsed)
  = Fulfilled rawOutput →
  parseOutputFn this rawOutput = Fulfilled data →
  value_of (call this opts) = Fulfilled data
  ∧ trace_of (call this opts)
    = pass_events opts (middlewares this) 0 None
      ++ [EvFn (length (middlewares this))
            (link_args opts (pass_through opts (middlewares this) None));
          EvParseInput (rawInput opts);
          EvResolver
            (resolver_arg opts
               (ctx_reaching_resolver opts (middlewares this)) parsed);
          EvParseOutput rawOutput].
Proof.
  intros Hfw Hparse Hres Hout. split.
  - by rewrite (call_after_resolver this opts parsed rawOutput), Hout.
  - rewrite call_trace_once
      by (eapply Forall_impl; [exact Hfw|apply forwards_calls_next_once]).
    unfold terminal_events. rewrite terminal_unfold, Hparse. cbn zeta.
    unfold ctx_reaching_resolver in Hres. rewrite Hres, Hout. reflexivity.
Qed.

Lemma call_fulfils_with_parsed_output_witness :
  value_of (call validated_procedure sample_opts) = Fulfilled (VStr "hi!?").
Proof.
  apply (call_fulfils_with_parsed_output validated_procedure sample_opts
           (VStr "hi!") (VStr "hi!") (VStr "hi!?")); try reflexivity.
  repeat constructor. intros args. eexists _, _. split; reflexivity.
Defined.

Lemma link_chain_Some opts post T i :
  ∃ g rest,
    (userFn <$> post) ++ [T] = g :: rest
    ∧ link opts ((userFn <$> post) ++ [T]) i
      = Some (nextFn opts g i (link opts rest (S i))).
Proof.
  destruct post as [|fn post].
  - exists T, []. by rewrite fmap_nil, app_nil_l, link_cons.
  - exists (userFn fn), ((userFn <$> post) ++ [T]).
    by rewrite fmap_cons, <- app_comm_cons, link_cons.
Qed.

Lemma resolver_args_terminal_events this opts i nextOpts parsed :
  parseInputFn this (rawInput opts) = Fulfilled parsed →
  resolver_args (terminal_events this opts i nextOpts)
  = [resolver_arg opts (mw_ctx (link_args opts nextOpts)) parsed].
Proof.
  intros Hparse. unfold terminal_events.
  rewrite terminal_unfold, Hparse. cbn zeta.
  destruct (resolver this _) as [out|err]; [|done].
  by destruct (parseOutputFn this out).
Qed.

(** What the last declared middleware gets from [await next(...)]: either
    the success record, carrying the parsed output and the context the
    synthetic function was entered with, or a failure record whose [error]
    is a classified error. *)
Theorem last_next_resolves_to_result (this : Procedure)
    (opts : ProcedureCallOptions) :
  ∃ f,
    nextFns opts (middlewaresWithResolver this opts) 0
      !! length (middlewares this) = Some f
    ∧ ∀ nextOpts,
        (∃ parsed rawOutput data,
           parseInputFn this (rawInput opts) = Fulfilled parsed
           ∧ resolver this
               (resolver_arg opts (mw_ctx (link_args opts nextOpts)) parsed)
             = Fulfilled rawOutput
           ∧ parseOutputFn this rawOutput = Fulfilled data
           ∧ value_of (f nextOpts)
             = VObj [("marker", middlewareMarker); ("ok", VBool true);
                     ("data", data);
                     ("ctx", mw_ctx (link_args opts nextOpts))])
        ∨ (∃ e,
             value_of (f nextOpts)
             = VObj [("ok", VBool false); ("error", e)]
             ∧ is_TRPCError e = true).
Proof.
  assert (Hlast : middlewaresWithResolver this opts
                    !! length (middlewares this) = Some (terminal this opts)).
  { unfold middlewaresWithResolver.
    rewrite lookup_app_r by (rewrite length_fmap; lia).
    by rewrite length_fmap, Nat.sub_diag. }
  eexists. split; [by apply nextFns_spec|].
  intros no. rewrite nextFn_value, terminal_unfold.
  destruct (parseInputFn this (rawInput opts)) as [parsed|c] eqn:Hparse.
  2: { right. eexists. split; [reflexivity|done]. }
  cbn zeta.
  destruct (resolver this _) as [out|err] eqn:Hres.
  2: { right. eexists. split; [reflexivity|].
       apply getErrorFromUnknown_is_classified. }
  destruct (parseOutputFn this out) as [d|c] eqn:Hout.
  - left. by exists parsed, out, d.
  - right. eexists. split; [reflexivity|done].
Qed.

(** ** Further properties of creation and composition *)

Lemma getParseFn_rejects_iff parser :
  (∃ e, getParseFn parser = Rejected e) ↔ unrecognized parser.
Proof.
  split.
  - intros [e He]. by destruct parser as [f|[?|] [?|] [?|] [?|]|v].
  - intros Hun. rewrite (unrecognized_getParseFn parser Hun). eauto.
Qed.

Lemma getParseFn_total parser :
  (∃ f, getParseFn parser = Fulfilled f) ∨ (∃ e, getParseFn parser = Rejected e).
Proof. destruct (getParseFn parser); eauto. Qed.

Lemma new_Procedure_rejects_iff env o :
  (∃ e, new_Procedure env o = Rejected e)
  ↔ unrecognized (opt_inputParser o)
    ∨ (parser_truthy (opt_outputParser o) = true
       ∧ skip_output_validation env = false
       ∧ unrecognized (opt_outputParser o)).
Proof.
  rewrite <- !getParseFn_rejects_iff. unfold new_Procedure.
  destruct (getParseFn (opt_inputParser o)) as [inFn|e].
  - destruct (parser_truthy (opt_outputParser o)),
      (skip_output_validation env); cbn [andb negb].
    2: { destruct (getParseFn (opt_outputParser o)) as [outFn|e'].
         - split; [by intros [? ?]|]. by intros [[? ?]|(_ & _ & [? ?])].
         - split; [|eauto]. intros _. right. eauto. }
    all: split; [by intros [? ?]|];
      by intros [[? ?]|(? & ? & _)].
  - split; eauto.
Qed.

(** [createProcedure] builds a procedure without middlewares around the
    declared resolver and validators, and throws exactly when a declared
    validator has none of the recognized shapes: the input validator when it
    is present and truthy, the output validator when it is truthy and
    output validation is not skipped.  An [input] option that is absent or
    falsy never makes it throw. *)
Theorem createProcedure_outcome (env : Env) (o : CreateProcedureOptions) :
  (∀ p, createProcedure env o = Fulfilled p →
     middlewares p = []
     ∧ resolver p = resolve o
     ∧ outputParser p = output o
     ∧ inputParser p = match declared_input o with
                       | Some parser => parser
                       | None => ParserFunction no_input_parser
                       end
     ∧ getParseFn (inputParser p) = Fulfilled (parseInputFn p))
  ∧ ((∃ e, createProcedure env o = Rejected e)
     ↔ (∃ parser, declared_input o = Some parser ∧ unrecognized parser)
       ∨ (parser_truthy (output o) = true
          ∧ skip_output_validation env = false
          ∧ unrecognized (output o))).
Proof.
  split.
  - intros p Hnew. unfold createProcedure in Hnew.
    apply new_Procedure_fields in Hnew as (? & ? & Hi & ? & Hin & _).
    cbn in *. rewrite Hi. by repeat split.
  - unfold createProcedure. rewrite new_Procedure_rejects_iff. cbn.
    destruct (declared_input o) as [parser|].
    + split; (intros [H|H]; [left|by right]).
      * by exists parser.
      * by destruct H as (? & [= <-] & ?).
    + split; (intros [H|H]; [|by right]); [done|].
      by destruct H as (? & ? & _).
Qed.

(** A procedure the constructor built, derived in the same environment. *)
Lemma inherit_same_env env o this mws :
  new_Procedure env o = Fulfilled this →
  inheritMiddlewares env this mws = Fulfilled (with_prepended mws this).
Proof.
  intros Hnew.
  apply new_Procedure_fields in Hnew as (_ & _ & Hi & Ho & Hin & Hout).
  unfold inheritMiddlewares, new_Procedure, with_prepended.
  cbn [opt_inputParser opt_outputParser opt_middlewares opt_resolver].
  rewrite Hi, Ho, Hin.
  destruct (parser_truthy (opt_outputParser o) && negb (skip_output_validation env)).
  - by rewrite Hout.
  - by rewrite Hout.
Qed.

(** Deriving twice is deriving once with the two lists joined, the later
    one in front; deriving with no middleware from a procedure built in the
    same environment gives the procedure back. *)
Theorem inheritMiddlewares_composes (env : Env) (this : Procedure) :
  (∀ a b p1,
     inheritMiddlewares env this a = Fulfilled p1 →
     inheritMiddlewares env p1 b = inheritMiddlewares env this (b ++ a))
  ∧ (∀ o,
       new_Procedure env o = Fulfilled this →
       inheritMiddlewares env this [] = Fulfilled this).
Proof.
  split.
  - intros a b p1 H1.
    destruct (inheritMiddlewares_fields _ _ _ _ H1) as (Hm & Hr & Hi & Ho).
    unfold inheritMiddlewares. by rewrite Hm, Hr, Hi, Ho, app_assoc.
  - intros o Hnew. rewrite (inherit_same_env env o this [] Hnew).
    by destruct this.
Qed.

Lemma inheritMiddlewares_composes_witness :
  inheritMiddlewares None (with_prepended [mw_pass] (sample_procedure []))
    [mw_return VNull]
  = inheritMiddlewares None (sample_procedure []) [mw_return VNull; mw_pass].
Proof.
  apply (proj1 (inheritMiddlewares_composes None (sample_procedure []))
           [mw_pass] [mw_return VNull]).
  reflexivity.
Defined.

(** [inheritMiddlewares] settles output validation anew, in the environment
    current when it runs and whatever the source had settled: with the skip
    toggle set the derived procedure does not validate its output; and a
    source built with the toggle set around an output validator of no
    recognized shape cannot be derived once the toggle is unset. *)
Theorem inheritMiddlewares_reads_environment (env : Env) (this : Procedure)
    (mws : list Middleware) :
  (∀ p', inheritMiddlewares env this mws = Fulfilled p' →
     if parser_truthy (outputParser this) && negb (skip_output_validation env)
     then getParseFn (outputParser this) = Fulfilled (parseOutputFn p')
     else parseOutputFn p' = identity_parse)
  ∧ (∀ env0 o,
       new_Procedure env0 o = Fulfilled this →
       skip_output_validation env = true →
       ∃ p', inheritMiddlewares env this mws = Fulfilled p'
             ∧ parseOutputFn p' = identity_parse)
  ∧ (∀ env0 o,
       new_Procedure env0 o = Fulfilled this →
       skip_output_validation env0 = true →
       skip_output_validation env = false →
       parser_truthy (opt_outputParser o) = true →
       unrecognized (opt_outputParser o) →
       ∃ e, inheritMiddlewares env this mws = Rejected e
            ∧ is_TRPCError e = false).
Proof.
  split_and!.
  - intros p' H. by apply new_Procedure_fields in H as (_ & _ & _ & _ & _ & ?).
  - intros env0 o Hnew Hs.
    apply new_Procedure_fields in Hnew as (_ & _ & Hi & _ & Hin & _).
    unfold inheritMiddlewares, new_Procedure.
    cbn [opt_inputParser opt_outputParser opt_middlewares opt_resolver].
    rewrite Hi, Hin, Hs, andb_false_r. eauto.
  - intros env0 o Hnew _ Hs Ht Hun.
    apply new_Procedure_fields in Hnew as (_ & _ & Hi & Ho & Hin & _).
    unfold inheritMiddlewares, new_Procedure.
    cbn [opt_inputParser opt_outputParser opt_middlewares opt_resolver].
    rewrite Hi, Ho, Hin, Ht, Hs, (unrecognized_getParseFn _ Hun).
    eexists. split; [reflexivity|].
    destruct (opt_outputParser o) as [|? ? ? ?|v]; try done.
    by destruct (nullish v).
Qed.

Lemma inheritMiddlewares_reads_environment_witness :
  (∃ p', inheritMiddlewares (Some "true") validated_procedure [mw_pass]
         = Fulfilled p'
         ∧ parseOutputFn p' = identity_parse)
  ∧ ∃ e, inheritMiddlewares None
           (mkProcedure [] sample_resolver (ParserFunction string_parser)
              string_parser shapeless_parser identity_parse) [mw_pass]
         = Rejected e
         ∧ is_TRPCError e = false.
Proof.
  split.
  - apply (proj1 (proj2 (inheritMiddlewares_reads_environment (Some "true")
                           validated_procedure [mw_pass]))
             None validated_options); reflexivity.
  - apply (proj2 (proj2 (inheritMiddlewares_reads_environment None
                           (mkProcedure [] sample_resolver
                              (ParserFunction string_parser) string_parser
                              shapeless_parser identity_parse) [mw_pass]))
             (Some "true")
             (mkProcedureOptions [] sample_resolver
                (ParserFunction string_parser) shapeless_parser));
      first [reflexivity|exact I].
Defined.

Lemma transparent_forwards fn : transparent fn → forwards fn.
Proof.
  intros H args. destruct (H args) as (k & E & Hk). by exists None, k.
Qed.

Lemma pass_through_transparent opts mws :
  Forall transparent mws → pass_through opts mws None = None.
Proof.
  induction 1 as [|fn mws Hfn _ IH]; [done|].
  simpl. by destruct (Hfn (link_args opts None)) as (k & -> & _).
Qed.

(** The outcome of a middleware body depends on its continuation only
    through the values the continuation resolves to. *)
Lemma runMiddleware_value_ext body (f g : NextFn) :
  (∀ nextOpts, value_of (f nextOpts) = value_of (g nextOpts)) →
  value_of (runMiddleware body (Some f)) = value_of (runMiddleware body (Some g)).
Proof.
  intros Hfg. induction body as [o|no k IH]; [done|].
  rewrite !runMiddleware_await, !value_of_bind, Hfg. apply IH.
Qed.

(** What a chain of middlewares resolves to does not depend on the index
    it is placed at. *)
Lemma chain_value_shift opts mws T :
  ∀ i j, ∃ f g,
    link opts ((userFn <$> mws) ++ [T]) i = Some f
    ∧ link opts ((userFn <$> mws) ++ [T]) j = Some g
    ∧ ∀ nextOpts, value_of (f nextOpts) = value_of (g nextOpts).
Proof.
  induction mws as [|fn mws IH]; intros i j.
  - rewrite fmap_nil, app_nil_l, !link_cons, link_nil.
    eexists _, _. split; [done|]. split; [done|].
    intros no. by rewrite !nextFn_value.
  - destruct (IH (S i) (S j)) as (f & g & Ef & Eg & Hfg).
    rewrite fmap_cons, <- app_comm_cons, !link_cons, Ef, Eg.
    eexists _, _. split; [done|]. split; [done|].
    intros no. rewrite !nextFn_value. unfold userFn.
    by rewrite (runMiddleware_value_ext _ f g Hfg).
Qed.

(** Prepending middlewares that only [return next()] changes nothing of a
    call's outcome; this is what [inheritMiddlewares] yields for a procedure
    built in the same environment. *)
Theorem transparent_middlewares_keep_outcome (this : Procedure)
    (opts : ProcedureCallOptions) (mws : list Middleware) :
  Forall transparent mws →
  value_of (call (with_prepended mws this) opts) = value_of (call this opts)
  ∧ ∀ env o,
      new_Procedure env o = Fulfilled this →
      inheritMiddlewares env this mws = Fulfilled (with_prepended mws this).
Proof.
  intros Htr. split; [|intros env o; apply inherit_same_env].
  assert (Hfw : Forall forwards mws)
    by (eapply Forall_impl; [exact Htr|apply transparent_forwards]).
  destruct (link_chain_Some opts (middlewares this) (terminal this opts) 0)
    as (g0 & rest0 & Echain & _).
  assert (Efns : middlewaresWithResolver (with_prepended mws this) opts
                 = (userFn <$> mws) ++ g0 :: rest0).
  { unfold middlewaresWithResolver, with_prepended.
    cbn [middlewares]. rewrite fmap_app, <- app_assoc. f_equal.
    exact Echain. }
  rewrite (call_through_forwarders _ opts mws g0 rest0 Efns Hfw).
  rewrite pass_through_transparent by done.
  destruct (call_link this opts) as (next0 & E & -> & _).
  f_equal.
  destruct (chain_value_shift opts (middlewares this) (terminal this opts)
              (length mws) 0) as (f & g & Ef & Eg & Hfg).
  unfold middlewaresWithResolver in E. rewrite Eg in E. injection E as <-.
  rewrite Echain, link_cons in Ef. injection Ef as <-.
  by rewrite <- Hfg, nextFn_value.
Qed.

Lemma transparent_middlewares_keep_outcome_witness :
  value_of (call (with_prepended [mw_pass; mw_pass] validated_procedure)
              sample_opts)
  = value_of (call validated_procedure sample_opts).
Proof.
  apply (transparent_middlewares_keep_outcome validated_procedure sample_opts
           [mw_pass; mw_pass]).
  repeat constructor; intros args; eexists; split; reflexivity.
Defined.

Lemma pass_through_snoc opts pre fn nextOpts :
  Forall calls_next_once pre →
  pass_through opts (pre ++ [fn]) nextOpts
  = pass_through opts [fn] (pass_through opts pre nextOpts).
Proof.
  intros Hpre. revert nextOpts.
  induction Hpre as [|g pre Hg _ IH]; intros no; [done|].
  rewrite <- app_comm_cons.
  rewrite (pass_through_cons opts g (pre ++ [fn]) no) by done.
  rewrite (pass_through_cons opts g pre no) by done.
  apply IH.
Qed.

(** When every [next] call is awaited before the next one is made, each
    invocation of the output parse function comes right after the
    invocation of the resolver that returned the value it is given. *)
Lemma output_parse_follows_resolver (this : Procedure)
    (opts : ProcedureCallOptions) (t1 : list Event) (v : Value)
    (t2 : list Event) :
  trace_of (call this opts) = t1 ++ EvParseOutput v :: t2 →
  ∃ t0 arg,
    t1 = t0 ++ [EvResolver arg] ∧ resolver this arg = Fulfilled v.
Proof.
  revert t1 v t2.
  apply (chain_trace_ind this opts
    (fun _ t => ∀ t1 v t2, t = t1 ++ EvParseOutput v :: t2 →
       ∃ t0 arg, t1 = t0 ++ [EvResolver arg] ∧ resolver this arg = Fulfilled v)).
  - intros _ [|??] ?? H; discriminate H.
  - intros _ t t' H H' t1 v t2 E.
    destruct (split_app_inv _ _ _ _ _ E) as [(t2' & -> & ->)|(t1' & -> & ->)].
    + by apply (H t1 v t2').
    + destruct (H' t1' v t2 eq_refl) as (t0 & arg & -> & ?).
      exists (t ++ t0), arg. by rewrite app_assoc.
  - intros i no body _ H t1 v t2 E.
    destruct t1 as [|x t1]; simpl in E; [discriminate E|].
    injection E as <- ->.
    destruct (H t1 v t2 eq_refl) as (t0 & arg & -> & ?).
    by exists (EvFn i (link_args opts no) :: t0), arg.
  - intros no t1 v t2. rewrite terminal_unfold.
    destruct (parseInputFn this (rawInput opts)) as [parsed|c].
    2: { intros E. destruct t1 as [|? [|? [|??]]]; discriminate E. }
    cbn zeta.
    set (arg := resolver_arg opts (mw_ctx (link_args opts no)) parsed).
    set (a := link_args opts no).
    destruct (resolver this arg) as [out|err] eqn:Hres; cbn [trace_of snd].
    2: { intros E. destruct t1 as [|? [|? [|? [|??]]]]; discriminate E. }
    assert (G : [EvFn (length (middlewares this)) a;
                 EvParseInput (rawInput opts); EvResolver arg;
                 EvParseOutput out] = t1 ++ EvParseOutput v :: t2 →
                ∃ t0 arg0, t1 = t0 ++ [EvResolver arg0]
                           ∧ resolver this arg0 = Fulfilled v).
    { intros E.
      destruct t1 as [|x1 [|x2 [|x3 [|x4 [|??]]]]]; try discriminate E.
      injection E as <- <- <- <-.
      by exists [EvFn (length (middlewares this)) a;
                 EvParseInput (rawInput opts)], arg. }
    by destruct (parseOutputFn this out) as [d|c]; cbn [trace_of snd].
Qed.


(** ** The chain on one call *)

Lemma Forall_once_along opts mws nextOpts :
  Forall calls_next_once mws → once_along opts mws nextOpts.
Proof.
  intros H. revert nextOpts. induction H as [|fn mws Hfn _ IH]; intros no; [done|].
  destruct (Hfn (link_args opts no)) as (no' & k & E & Hk).
  exists no', k. eauto.
Qed.

Lemma Forall_forwards_along opts mws nextOpts :
  Forall forwards mws → forwards_along opts mws nextOpts.
Proof.
  intros H. revert nextOpts. induction H as [|fn mws Hfn _ IH]; intros no; [done|].
  destruct (Hfn (link_args opts no)) as (no' & k & E & Hk).
  exists no', k. eauto.
Qed.

Lemma forwards_once_along opts mws nextOpts :
  forwards_along opts mws nextOpts → once_along opts mws nextOpts.
Proof.
  revert nextOpts. induction mws as [|fn mws IH]; intros no; [done|].
  intros (no' & k & E & Hk & Hrest). exists no', k.
  split; [done|]. split; [|by apply IH]. intros v. eauto.
Qed.

(** Through middlewares that each await [next] once on this call, the trace
    is their invocations in order followed by the trace of the link after
    them. *)
Lemma pass_trace_along opts mws fn0 rest0 :
  ∀ i nextOpts, once_along opts mws nextOpts →
    ∃ f,
      link opts ((userFn <$> mws) ++ fn0 :: rest0) i = Some f
      ∧ trace_of (f nextOpts)
        = pass_events opts mws i nextOpts
          ++ trace_of (nextFn opts fn0 (i + length mws)
                         (link opts rest0 (S (i + length mws)))
                         (pass_through opts mws nextOpts))
      ∧ fn_indices (pass_events opts mws i nextOpts) = seq i (length mws).
Proof.
  induction mws as [|fn mws IH]; intros i no Hon.
  - simpl. rewrite link_cons, Nat.add_0_r. eauto.
  - destruct Hon as (no' & k & E & Hk & Hrest).
    destruct (IH (S i) no' Hrest) as (f' & Ef' & Hf' & Hidx).
    rewrite fmap_cons, <- app_comm_cons, link_cons, Ef'.
    eexists. split; [done|].
    rewrite nextFn_trace. unfold userFn at 1.
    cbn [pass_events pass_through]. rewrite E.
    rewrite runMiddleware_await, trace_of_bind.
    destruct (Hk (value_of (f' no'))) as [o ->].
    cbn [runMiddleware ret trace_of snd]. rewrite app_nil_r, Hf'.
    cbn [length]. replace (S i + length mws) with (i + S (length mws)) by lia.
    split; [done|]. cbn. by rewrite <- Hidx.
Qed.

(** Through middlewares that forward on this call, the result is that of
    the link after them. *)
Lemma pass_value_along opts mws fn0 rest0 :
  ∀ i nextOpts, forwards_along opts mws nextOpts →
    ∃ f,
      link opts ((userFn <$> mws) ++ fn0 :: rest0) i = Some f
      ∧ value_of (f nextOpts)
        = value_of (nextFn opts fn0 (i + length mws)
                      (link opts rest0 (S (i + length mws)))
                      (pass_through opts mws nextOpts)).
Proof.
  induction mws as [|fn mws IH]; intros i no Hfw.
  - simpl. rewrite link_cons, Nat.add_0_r. eauto.
  - destruct Hfw as (no' & k & E & Hk & Hrest).
    destruct (IH (S i) no' Hrest) as (f' & Ef' & Hf').
    rewrite fmap_cons, <- app_comm_cons, link_cons, Ef'.
    eexists. split; [done|].
    rewrite nextFn_value. unfold userFn at 1.
    cbn [pass_through]. rewrite E.
    rewrite runMiddleware_await, value_of_bind, Hk.
    cbn [runMiddleware ret value_of fst settle_link]. rewrite Hf'.
    cbn [length]. by replace (S i + length mws) with (i + S (length mws)) by lia.
Qed.

(** The outcome of the middleware after [pre] decides the call when [pre]
    forwards on this call. *)
Lemma call_decided_after this opts pre fn post :
  middlewares this = pre ++ fn :: post →
  forwards_along opts pre None →
  value_of (chain_result this opts)
  = Fulfilled (settle_link (outcome_of this opts pre fn post))
  ∧ value_of (call this opts)
    = conclude (settle_link (outcome_of this opts pre fn post)).
Proof.
  intros Emws Hpre.
  pose proof (chain_split_middleware this opts pre fn post Emws) as Efns.
  destruct (pass_value_along opts pre (userFn fn)
              ((userFn <$> post) ++ [terminal this opts]) 0 None Hpre)
    as (f & Ef & Hf).
  rewrite nextFn_value, Nat.add_0_l in Hf.
  split.
  - destruct (chain_result_link this opts) as (next0 & E & ->).
    rewrite Efns, Ef in E. injection E as <-.
    cbn [value_of fst]. by rewrite Hf.
  - destruct (call_link this opts) as (next0 & E & -> & _).
    rewrite Efns, Ef in E. injection E as <-. by rewrite Hf.
Qed.

(** The outcome of the synthetic function decides the call when all
    middlewares forward on this call. *)
Lemma call_decided_by_terminal this opts :
  forwards_along opts (middlewares this) None →
  value_of (call this opts)
  = conclude
      (settle_link
         (value_of (terminal this opts
                      (args_after opts (middlewares this)) None))).
Proof.
  intros Hfw.
  destruct (pass_value_along opts (middlewares this) (terminal this opts) []
              0 None Hfw) as (f & Ef & Hf).
  rewrite nextFn_value, Nat.add_0_l, link_nil in Hf.
  destruct (call_link this opts) as (next0 & E & -> & _).
  unfold middlewaresWithResolver in E. rewrite Ef in E. injection E as <-.
  by rewrite Hf.
Qed.

(** The trace of a call whose middlewares each await [next] once on it. *)
Lemma call_trace_along this opts :
  once_along opts (middlewares this) None →
  trace_of (call this opts)
  = pass_events opts (middlewares this) 0 None
    ++ terminal_events this opts (length (middlewares this))
         (pass_through opts (middlewares this) None)
  ∧ fn_indices (pass_events opts (middlewares this) 0 None)
    = seq 0 (length (middlewares this)).
Proof.
  intros Hon.
  destruct (pass_trace_along opts (middlewares this) (terminal this opts) []
              0 None Hon) as (f & Ef & Hf & Hidx).
  rewrite nextFn_trace, Nat.add_0_l, link_nil in Hf.
  destruct (call_link this opts) as (next0 & E & _ & ->).
  unfold middlewaresWithResolver in E. rewrite Ef in E. injection E as <-.
  by rewrite Hf.
Qed.





(** ** Errors and results across forwarding middlewares *)

(** C2, as amended.  A classified error thrown by a middleware, at once or
    after awaiting [next], or by the resolver, reaches the caller as it was
    thrown when every middleware ahead of the thrower returns, on this call,
    what its [next] resolved to: [call] rejects with that very value, so
    with its kind and its cause.  Whatever error the chain's result carries
    is re-thrown as it is. *)
Theorem classified_error_reaches_caller (this : Procedure)
    (opts : ProcedureCallOptions) (pre : list Middleware) (e : Value) :
  is_TRPCError e = true →
  forwards_along opts pre None →
  (∀ fn post,
     middlewares this = pre ++ fn :: post →
     outcome_of this opts pre fn post = Rejected e →
     value_of (call this opts) = Rejected e)
  ∧ (∀ parsed,
       middlewares this = pre →
       parseInputFn this (rawInput opts) = Fulfilled parsed →
       resolver this
         (resolver_arg opts (mw_ctx (args_after opts pre)) parsed)
       = Rejected e →
       value_of (call this opts) = Rejected e)
  ∧ (∀ result,
       truthy result = true → truthy (getProp "ok" result) = false →
       conclude result = Rejected (getProp "error" result)).
Proof.
  intros He Hpre. split_and!.
  - intros fn post Emws Hthrow.
    destruct (call_decided_after this opts pre fn post Emws Hpre) as [_ ->].
    by rewrite Hthrow, settle_link_classified, conclude_failure.
  - intros parsed Emws Hparse Hres. subst pre.
    rewrite (call_decided_by_terminal this opts Hpre).
    rewrite terminal_unfold, Hparse. cbn zeta. rewrite Hres.
    cbn [value_of fst].
    by rewrite settle_link_classified, conclude_failure.
  - intros result Ht Hok. unfold conclude. by rewrite Ht, Hok.
Qed.

Lemma classified_error_reaches_caller_witness :
  value_of (call (sample_procedure [mw_pass; mw_throw_after forbidden; mw_pass])
              sample_opts) = Rejected forbidden
  ∧ value_of (call (throwing_procedure [mw_pass]) sample_opts)
    = Rejected forbidden.
Proof.
  assert (Hpre : forwards_along sample_opts [mw_pass] None).
  { eexists _, _. split_and!; [reflexivity|reflexivity|exact I]. }
  split.
  - apply (proj1 (classified_error_reaches_caller
                    (sample_procedure
                       [mw_pass; mw_throw_after forbidden; mw_pass])
                    sample_opts [mw_pass] forbidden eq_refl Hpre)
             (mw_throw_after forbidden) [mw_pass]); reflexivity.
  - apply (proj1 (proj2 (classified_error_reaches_caller
                           (throwing_procedure [mw_pass])
                           sample_opts [mw_pass] forbidden eq_refl Hpre))
             (VStr "hi!")); reflexivity.
Defined.

(** C2, as the spec has it, fails: the resolver is invoked and throws a
    classified error, and [call] fulfils, because the middleware ahead of it
    returns a result of its own. *)
Lemma classified_error_dropped_counterexample :
  is_TRPCError forbidden = true
  ∧ (∀ arg, resolver (throwing_procedure [mw_replace fallback_result]) arg
            = Rejected forbidden)
  ∧ length (resolver_args
              (trace_of (call (throwing_procedure [mw_replace fallback_result])
                           sample_opts))) = 1
  ∧ value_of (call (throwing_procedure [mw_replace fallback_result])
                sample_opts)
    = Fulfilled (VStr "fallback").
Proof. by split_and!. Qed.

(** The resolver is reached, once, when every middleware awaits [next]
    once on this call and the input validator accepts. *)
Lemma resolver_reached_along this opts parsed :
  once_along opts (middlewares this) None →
  parseInputFn this (rawInput opts) = Fulfilled parsed →
  resolver_args (trace_of (call this opts))
  = [resolver_arg opts (mw_ctx (args_after opts (middlewares this))) parsed].
Proof.
  intros Hon Hparse.
  destruct (call_trace_along this opts Hon) as [-> _].
  rewrite resolver_args_app, resolver_args_pass_events.
  by rewrite (resolver_args_terminal_events _ _ _ _ parsed Hparse).
Qed.

(** C3, as amended.  The resolver is only ever invoked right after the raw
    input went through the input parse function, the validator accepted,
    and the [input] of the resolver's argument is the parsed value; it is
    invoked when the validator accepts and every middleware awaits [next]
    once on this call.  When the validator throws, the resolver is not
    invoked and, every middleware returning on this call what its [next]
    resolved to, [call] rejects with a [BAD_REQUEST] error whose cause is
    the thrown value.  The parse function of a constructed procedure is the
    one [getParseFn] resolved from the validator. *)
Theorem input_parsed_then_resolved (this : Procedure)
    (opts : ProcedureCallOptions) :
  let t := trace_of (call this opts) in
  (∀ t1 arg t2, t = t1 ++ EvResolver arg :: t2 →
     ∃ t0 parsed,
       t1 = t0 ++ [EvParseInput (rawInput opts)]
       ∧ parseInputFn this (rawInput opts) = Fulfilled parsed
       ∧ getProp "input" arg = parsed)
  ∧ (∀ parsed,
       parseInputFn this (rawInput opts) = Fulfilled parsed →
       once_along opts (middlewares this) None →
       ∃ arg, resolver_args t = [arg] ∧ getProp "input" arg = parsed)
  ∧ (∀ cause,
       parseInputFn this (rawInput opts) = Rejected cause →
       resolver_args t = []
       ∧ (forwards_along opts (middlewares this) None →
          value_of (call this opts)
          = Rejected (VTRPCError "BAD_REQUEST" "Input validation failed" cause)))
  ∧ (∀ env o,
       new_Procedure env o = Fulfilled this →
       getParseFn (opt_inputParser o) = Fulfilled (parseInputFn this)).
Proof.
  intros t. split_and!.
  - intros t1 arg t2 E.
    destruct (resolver_event_inv _ _ _ _ _ E) as (t0 & no & parsed & ? & ? & ->).
    exists t0, parsed. by repeat split.
  - intros parsed Hparse Hon. eexists. split.
    + by apply resolver_reached_along.
    + reflexivity.
  - intros cause Hparse. split; [by eapply resolver_not_reached|].
    intros Hfw. rewrite (call_decided_by_terminal this opts Hfw).
    by rewrite terminal_unfold, Hparse.
  - intros env o Hnew. by apply new_Procedure_fields in Hnew as (_&_&_&_&?&_).
Qed.

Lemma input_parsed_then_resolved_witness :
  (∃ arg,
     resolver_args (trace_of (call (sample_procedure [mw_pass]) sample_opts))
     = [arg] ∧ getProp "input" arg = VStr "hi!")
  ∧ value_of (call (sample_procedure [mw_pass]) number_opts)
    = Rejected
        (VTRPCError "BAD_REQUEST" "Input validation failed"
           (VError "Error" "expected a string")).
Proof.
  split.
  - apply (proj1 (proj2 (input_parsed_then_resolved
                           (sample_procedure [mw_pass]) sample_opts))
             (VStr "hi!") eq_refl).
    eexists _, _. split_and!;
      [reflexivity|intros v; eexists; reflexivity|exact I].
  - apply (proj2 (proj1 (proj2 (proj2 (input_parsed_then_resolved
                     (sample_procedure [mw_pass]) number_opts)))
             (VError "Error" "expected a string") eq_refl)).
    eexists _, _. split_and!; [reflexivity|reflexivity|exact I].
Defined.

(** C3, as the spec has it, fails: the input validator throws, and [call]
    fulfils, because the middleware returns a result of its own. *)
Lemma input_rejection_dropped_counterexample :
  parseInputFn (sample_procedure [mw_replace fallback_result])
    (rawInput number_opts)
  = Rejected (VError "Error" "expected a string")
  ∧ value_of (call (sample_procedure [mw_replace fallback_result]) number_opts)
    = Fulfilled (VStr "fallback").
Proof. by split. Qed.

(** The call's outcome once the resolver has returned, the middlewares
    forwarding on this call. *)
Lemma call_after_resolver_along this opts parsed rawOutput :
  forwards_along opts (middlewares this) None →
  parseInputFn this (rawInput opts) = Fulfilled parsed →
  resolver this
    (resolver_arg opts (mw_ctx (args_after opts (middlewares this))) parsed)
  = Fulfilled rawOutput →
  value_of (call this opts)
  = match parseOutputFn this rawOutput with
    | Fulfilled data => Fulfilled data
    | Rejected cause =>
        Rejected
          (VTRPCError "INTERNAL_SERVER_ERROR" "Output validation failed" cause)
    end.
Proof.
  intros Hfw Hparse Hres.
  rewrite (call_decided_by_terminal this opts Hfw).
  rewrite terminal_unfold, Hparse. cbn zeta. rewrite Hres.
  by destruct (parseOutputFn this rawOutput).
Qed.

(** C4, as amended.  When the output parse function throws on what the
    resolver returned, and every middleware returns on this call what its
    [next] resolved to, [call] rejects with an [INTERNAL_SERVER_ERROR] whose
    cause is the thrown value.  The constructor settles the output parse
    function: the identity when no output validator is declared or the skip
    toggle is ["true"], the function resolved from the validator otherwise;
    [call] reads that field and no environment, and with the identity the
    resolver's output is the call's result. *)
Theorem output_rejection_reaches_caller (this : Procedure)
    (opts : ProcedureCallOptions) (parsed rawOutput : Value) :
  forwards_along opts (middlewares this) None →
  parseInputFn this (rawInput opts) = Fulfilled parsed →
  resolver this
    (resolver_arg opts (mw_ctx (args_after opts (middlewares this))) parsed)
  = Fulfilled rawOutput →
  (∀ cause,
     parseOutputFn this rawOutput = Rejected cause →
     value_of (call this opts)
     = Rejected
         (VTRPCError "INTERNAL_SERVER_ERROR" "Output validation failed" cause))
  ∧ (∀ env o,
       new_Procedure env o = Fulfilled this →
       (parser_truthy (opt_outputParser o) = false
        ∨ skip_output_validation env = true →
        parseOutputFn this = identity_parse
        ∧ value_of (call this opts) = Fulfilled rawOutput)
       ∧ (parser_truthy (opt_outputParser o) = true →
          skip_output_validation env = false →
          getParseFn (opt_outputParser o) = Fulfilled (parseOutputFn this))).
Proof.
  intros Hfw Hparse Hres.
  pose proof (call_after_resolver_along this opts parsed rawOutput
                Hfw Hparse Hres) as Hcall.
  split.
  - intros cause Hout. by rewrite Hcall, Hout.
  - intros env o Hnew.
    apply new_Procedure_fields in Hnew as (_ & _ & _ & _ & _ & Hout).
    split.
    + intros Hskip.
      assert (Hid : parseOutputFn this = identity_parse).
      { destruct Hskip as [Hs | Hs]; rewrite Hs in Hout; [done|].
        by rewrite andb_false_r in Hout. }
      split; [done|]. by rewrite Hcall, Hid.
    + intros Ht Hs. by rewrite Ht, Hs in Hout.
Qed.

Lemma output_rejection_reaches_caller_witness :
  value_of (call (rejecting_output_procedure [mw_pass]) sample_opts)
  = Rejected (VTRPCError "INTERNAL_SERVER_ERROR" "Output validation failed"
                (VNum 9)).
Proof.
  apply (proj1 (output_rejection_reaches_caller
                  (rejecting_output_procedure [mw_pass]) sample_opts
                  (VStr "hi!") (VStr "hi!")
                  ltac:(eexists _, _; split_and!;
                        [reflexivity|reflexivity|exact I])
                  eq_refl eq_refl) (VNum 9) eq_refl).
Defined.

(** C4, as the spec has it, fails: the output validator rejects what the
    resolver returned, and [call] fulfils, because the middleware returns a
    result of its own. *)
Lemma output_rejection_dropped_counterexample :
  (∀ rawOutput,
     parseOutputFn (rejecting_output_procedure [mw_replace fallback_result])
       rawOutput = Rejected (VNum 9))
  ∧ value_of (call (rejecting_output_procedure [mw_replace fallback_result])
                sample_opts)
    = Fulfilled (VStr "fallback").
Proof. by split. Qed.

(** C9, as amended.  A middleware that, on this call, returns a value
    without calling [next] makes its own continuation resolve to that value
    as it is; when every middleware ahead of it returns on this call what
    its [next] resolved to, that value is the result of the chain, and when
    it is falsy [call] rejects with an [INTERNAL_SERVER_ERROR] whose message
    asks whether [return next()] was forgotten. *)
Theorem direct_return_reaches_caller (this : Procedure)
    (opts : ProcedureCallOptions) (pre : list Middleware) (fn : Middleware)
    (post : list Middleware) (v : Value) :
  middlewares this = pre ++ fn :: post →
  (∃ f, nextFns opts (middlewaresWithResolver this opts) 0 !! length pre
        = Some f
        ∧ ∀ nextOpts,
            fn (link_args opts nextOpts) = Settle (Fulfilled v) →
            value_of (f nextOpts) = v)
  ∧ (forwards_along opts pre None →
     fn (args_after opts pre) = Settle (Fulfilled v) →
     value_of (chain_result this opts) = Fulfilled v
     ∧ (truthy v = false →
        value_of (call this opts)
        = Rejected
            (VTRPCError "INTERNAL_SERVER_ERROR"
               "No result from middlewares - did you forget to `return next()`?"
               VUndefined)))
  ∧ (truthy VUndefined = false ∧ truthy VNull = false
     ∧ truthy (VBool false) = false ∧ truthy (VNum 0) = false
     ∧ truthy (VStr "") = false).
Proof.
  intros Emws. split_and!; try done.
  - assert (Hi : middlewares this !! length pre = Some fn).
    { rewrite Emws. by apply list_lookup_middle. }
    destruct (link_at_middleware this opts _ fn Hi) as (g & rest & E).
    eexists. split; [exact E|].
    intros no Hret. rewrite nextFn_value. unfold userFn. by rewrite Hret.
  - intros Hpre Hret.
    destruct (call_decided_after this opts pre fn post Emws Hpre) as [-> ->].
    assert (Hout : outcome_of this opts pre fn post = Fulfilled v).
    { unfold outcome_of, userFn. by rewrite Hret. }
    rewrite Hout. split; [done|].
    intros Hfalsy. cbn [settle_link]. unfold conclude. by rewrite Hfalsy.
Qed.

Lemma direct_return_reaches_caller_witness :
  value_of (chain_result (sample_procedure [mw_pass; mw_return (VNum 0); mw_pass])
              sample_opts) = Fulfilled (VNum 0)
  ∧ value_of (call (sample_procedure [mw_pass; mw_return (VNum 0); mw_pass])
                sample_opts)
    = Rejected
        (VTRPCError "INTERNAL_SERVER_ERROR"
           "No result from middlewares - did you forget to `return next()`?"
           VUndefined).
Proof.
  destruct (direct_return_reaches_caller
              (sample_procedure [mw_pass; mw_return (VNum 0); mw_pass])
              sample_opts [mw_pass] (mw_return (VNum 0)) [mw_pass] (VNum 0)
              eq_refl) as (_ & H & _).
  destruct H as [Hres Hcall]; [|reflexivity|].
  - eexists _, _. split_and!; [reflexivity|reflexivity|exact I].
  - split; [exact Hres|exact (Hcall eq_refl)].
Defined.

(** C9, as the spec has it, fails: the second middleware returns [null]
    without calling [next], and the chain's result is not [null] and [call]
    does not reject, because the middleware ahead of it returns a result of
    its own. *)
Lemma direct_return_replaced_counterexample :
  (∀ args, mw_return VNull args = Settle (Fulfilled VNull))
  ∧ value_of (chain_result
                (sample_procedure [mw_replace fallback_result; mw_return VNull])
                sample_opts)
    = Fulfilled fallback_result
  ∧ value_of (call (sample_procedure
                      [mw_replace fallback_result; mw_return VNull])
                sample_opts)
    = Fulfilled (VStr "fallback").
Proof. by split_and!. Qed.

(** C7, as amended.  The probes run in the order callable, [parseAsync],
    [parse], [validateSync], [create].  A validator value of no recognized
    shape, other than [null] or [undefined], makes [getParseFn] throw the
    plain [Error] "Could not find a validator fn", and the constructor with
    it; that value is not a classified error and has no kind.  The input
    validator is always resolved; an output validator is resolved, and so
    can fail construction, only when it is truthy and the skip toggle is
    not ["true"]. *)
Theorem unrecognized_validator_throws_plain_error (parser : Parser) :
  unrecognized parser →
  not_nullish parser →
  getParseFn parser = Rejected (VError "Error" "Could not find a validator fn")
  ∧ is_TRPCError (VError "Error" "Could not find a validator fn") = false
  ∧ kind_of (VError "Error" "Could not find a validator fn") = None
  ∧ (∀ env o,
       opt_inputParser o = parser →
       new_Procedure env o
       = Rejected (VError "Error" "Could not find a validator fn"))
  ∧ (∀ env o inFn,
       getParseFn (opt_inputParser o) = Fulfilled inFn →
       opt_outputParser o = parser →
       parser_truthy parser = true →
       skip_output_validation env = false →
       new_Procedure env o
       = Rejected (VError "Error" "Could not find a validator fn"))
  ∧ (∀ env o inFn,
       getParseFn (opt_inputParser o) = Fulfilled inFn →
       opt_outputParser o = parser →
       parser_truthy parser = false ∨ skip_output_validation env = true →
       ∃ p, new_Procedure env o = Fulfilled p
            ∧ parseOutputFn p = identity_parse)
  ∧ (∀ f, getParseFn (ParserFunction f) = Fulfilled f)
  ∧ (∀ f p vs c, getParseFn (ParserObject (Some f) p vs c) = Fulfilled f)
  ∧ (∀ f vs c, getParseFn (ParserObject None (Some f) vs c) = Fulfilled f)
  ∧ (∀ f c, getParseFn (ParserObject None None (Some f) c) = Fulfilled f)
  ∧ (∀ f, getParseFn (ParserObject None None None (Some f)) = Fulfilled f).
Proof.
  intros Hun Hnn.
  assert (Hg : getParseFn parser = Rejected no_validator_error).
  { rewrite (unrecognized_getParseFn parser Hun).
    destruct parser as [|? ? ? ?|v]; try done. simpl in Hnn. by rewrite Hnn. }
  split_and!; try done.
  - intros env o <-. unfold new_Procedure. by rewrite Hg.
  - intros env o inFn Hin <- Ht Hs. unfold new_Procedure.
    by rewrite Hin, Ht, Hs, Hg.
  - intros env o inFn Hin <- Hskip. unfold new_Procedure. rewrite Hin.
    destruct Hskip as [Hs|Hs]; rewrite Hs; [|rewrite andb_false_r]; eauto.
Qed.

Lemma unrecognized_validator_throws_plain_error_witness :
  getParseFn shapeless_parser
  = Rejected (VError "Error" "Could not find a validator fn")
  ∧ new_Procedure None shapeless_options
    = Rejected (VError "Error" "Could not find a validator fn").
Proof.
  destruct (unrecognized_validator_throws_plain_error shapeless_parser I I)
    as (Hg & _ & _ & Hnew & _).
  split; [exact Hg|exact (Hnew None shapeless_options eq_refl)].
Defined.

(** ** Further properties of the chain on one call *)

Lemma terminal_trace_type_and_path this opts n a next :
  Forall (forwards_type_and_path opts n) (trace_of (terminal this opts a next)).
Proof.
  rewrite terminal_unfold.
  destruct (parseInputFn _ _); [|by repeat constructor]. cbn zeta.
  destruct (resolver _ _); [|by repeat constructor].
  destruct (parseOutputFn _ _); by repeat constructor.
Qed.

(** Every function of the chain, whenever it is invoked during a call, is
    given the call's own [type] and [path]; its index is within the
    chain. *)
Theorem middlewares_receive_type_and_path (this : Procedure)
    (opts : ProcedureCallOptions) :
  Forall (forwards_type_and_path opts (length (middlewares this)))
    (trace_of (call this opts)).
Proof.
  apply (chain_trace_ind this opts
           (fun _ => Forall (forwards_type_and_path opts
                               (length (middlewares this))))).
  - intros _. constructor.
  - intros _ t t' Ht Ht'. by apply Forall_app.
  - intros i no body Hi Hbody. constructor; [|done].
    simpl. repeat split. lia.
  - intros no. constructor.
    + simpl. by repeat split.
    + apply terminal_trace_type_and_path.
Qed.

(** When every middleware ahead of it returns on this call what its [next]
    resolved to, a truthy value that a middleware returns without calling
    [next] is judged as the chain's result whatever it is: without a truthy
    [ok] the call rejects with its [error] property as it is, which for a
    value that has none is [undefined] and no classified error; with a
    truthy [ok] the call fulfils with its [data] property. *)
Theorem direct_return_judged_when_forwarded (this : Procedure)
    (opts : ProcedureCallOptions) (pre : list Middleware) (fn : Middleware)
    (post : list Middleware) (v : Value) :
  middlewares this = pre ++ fn :: post →
  forwards_along opts pre None →
  fn (args_after opts pre) = Settle (Fulfilled v) →
  truthy v = true →
  (truthy (getProp "ok" v) = false →
   value_of (call this opts) = Rejected (getProp "error" v)
   ∧ (getProp "error" v = VUndefined →
      value_of (call this opts) = Rejected VUndefined
      ∧ is_TRPCError VUndefined = false))
  ∧ (truthy (getProp "ok" v) = true →
     value_of (call this opts) = Fulfilled (getProp "data" v)).
Proof.
  intros Emws Hpre Hret Ht.
  destruct (call_decided_after this opts pre fn post Emws Hpre) as [_ ->].
  assert (Hout : outcome_of this opts pre fn post = Fulfilled v).
  { unfold outcome_of, userFn. by rewrite Hret. }
  rewrite Hout. cbn [settle_link]. unfold conclude. rewrite Ht. cbn [negb].
  split; intros Hok; rewrite Hok; cbn [negb]; [|done].
  split; [done|]. by intros ->.
Qed.

Lemma direct_return_judged_when_forwarded_witness :
  value_of (call (sample_procedure [mw_pass; mw_return (VNum 3)]) sample_opts)
  = Rejected VUndefined.
Proof.
  assert (Hpre : forwards_along sample_opts [mw_pass] None).
  { eexists _, _. split_and!; [reflexivity|reflexivity|exact I]. }
  exact (proj1 (proj1 (direct_return_judged_when_forwarded
                         (sample_procedure [mw_pass; mw_return (VNum 3)])
                         sample_opts [mw_pass] (mw_return (VNum 3)) []
                         (VNum 3) eq_refl Hpre eq_refl eq_refl) eq_refl)).
Defined.

(** When every middleware ahead of it returns on this call what its [next]
    resolved to, a middleware that awaits [next] and then, whatever came
    back, returns a result [r] of its own makes [r] the chain's result: what
    later middlewares and the resolver did, an error included, is dropped;
    when [r] is truthy with a truthy [ok] the call fulfils with its
    [data]. *)
Theorem own_result_replaces_downstream (this : Procedure)
    (opts : ProcedureCallOptions) (pre : list Middleware) (fn : Middleware)
    (post : list Middleware) (nextOpts : option NextOpts)
    (k : Value → MwProg) (r : Value) :
  middlewares this = pre ++ fn :: post →
  forwards_along opts pre None →
  fn (args_after opts pre) = AwaitNext nextOpts k →
  (∀ v, k v = Settle (Fulfilled r)) →
  value_of (chain_result this opts) = Fulfilled r
  ∧ (truthy r = true → truthy (getProp "ok" r) = true →
     value_of (call this opts) = Fulfilled (getProp "data" r)).
Proof.
  intros Emws Hpre Hfn Hk.
  destruct (call_decided_after this opts pre fn post Emws Hpre) as [-> ->].
  assert (Hout : outcome_of this opts pre fn post = Fulfilled r).
  { unfold outcome_of, userFn, next_after.
    destruct (link_chain_Some opts post (terminal this opts) (S (length pre)))
      as (g & rest & _ & ->).
    by rewrite Hfn, runMiddleware_await, value_of_bind, Hk. }
  rewrite Hout. split; [done|].
  intros Ht Hok. cbn [settle_link]. unfold conclude. by rewrite Ht, Hok.
Qed.

Lemma own_result_replaces_downstream_witness :
  value_of (call (throwing_procedure [mw_pass; mw_replace fallback_result])
              sample_opts)
  = Fulfilled (VStr "fallback").
Proof.
  apply (proj2 (own_result_replaces_downstream
                  (throwing_procedure [mw_pass; mw_replace fallback_result])
                  sample_opts [mw_pass] (mw_replace fallback_result) [] None
                  (fun _ => Settle (Fulfilled fallback_result))
                  fallback_result eq_refl
                  ltac:(eexists _, _; split_and!;
                        [reflexivity|reflexivity|exact I])
                  eq_refl (fun _ => eq_refl))); reflexivity.
Defined.

Lemma once_along_snoc opts pre fn nextOpts nextOpts' k :
  once_along opts pre nextOpts →
  fn (link_args opts (pass_through opts pre nextOpts)) = AwaitNext nextOpts' k →
  (∀ v, ∃ o, k v = Settle o) →
  once_along opts (pre ++ [fn]) nextOpts
  ∧ pass_through opts (pre ++ [fn]) nextOpts = nextOpts'.
Proof.
  revert nextOpts. induction pre as [|g pre IH]; intros no Hon Hfn Hk.
  - cbn in *. rewrite Hfn. split; [|done]. by exists nextOpts', k.
  - destruct Hon as (no1 & k1 & E & Hk1 & Hrest).
    cbn [pass_through] in Hfn. rewrite E in Hfn.
    destruct (IH no1 Hrest Hfn Hk) as [Hon' Hpt].
    split.
    + exists no1, k1. by split_and!.
    + rewrite <- app_comm_cons. cbn [pass_through]. by rewrite E.
Qed.

Lemma last_next_value_spec this opts i nextOpts :
  value_of (nextFn opts (terminal this opts) i None nextOpts)
  = last_next_value this opts nextOpts.
Proof. apply nextFn_value. Qed.

(** Each [next(...)] call runs everything downstream again.  When the
    middlewares ahead each await [next] once on this call and the last
    middleware awaits [next(o1)] and then, on its result, [next(o2)] before
    settling, the synthetic function is entered twice, first with the
    context of [o1] and then with that of [o2], so that the input is
    validated twice and the resolver invoked twice, with these contexts in
    this order. *)
Theorem each_next_call_reruns_terminal (this : Procedure)
    (opts : ProcedureCallOptions) (pre : list Middleware) (fn : Middleware)
    (o1 o2 : option NextOpts) (k1 k2 : Value → MwProg) (out : Outcome Value) :
  middlewares this = pre ++ [fn] →
  once_along opts pre None →
  fn (args_after opts pre) = AwaitNext o1 k1 →
  k1 (last_next_value this opts o1) = AwaitNext o2 k2 →
  k2 (last_next_value this opts o2) = Settle out →
  trace_of (call this opts)
  = pass_events opts pre 0 None
    ++ EvFn (length pre) (args_after opts pre)
       :: terminal_events this opts (S (length pre)) o1
       ++ terminal_events this opts (S (length pre)) o2
  ∧ ∀ parsed,
      parseInputFn this (rawInput opts) = Fulfilled parsed →
      resolver_args (trace_of (call this opts))
      = [resolver_arg opts (ctx_given opts o1) parsed;
         resolver_arg opts (ctx_given opts o2) parsed].
Proof.
  intros Emws Hon Hfn Hk1 Hk2.
  destruct (call_link this opts) as (next0 & E & _ & ->).
  rewrite (chain_split_middleware this opts pre fn [] Emws) in E.
  destruct (pass_trace_along opts pre (userFn fn)
              ((userFn <$> []) ++ [terminal this opts]) 0 None Hon)
    as (f & Ef & Hf & _).
  rewrite Ef in E. injection E as <-.
  rewrite Hf, Nat.add_0_l, nextFn_trace.
  rewrite fmap_nil, app_nil_l, link_cons, link_nil.
  unfold userFn. unfold args_after in *. rewrite Hfn.
  rewrite runMiddleware_await, trace_of_bind, last_next_value_spec, Hk1.
  rewrite runMiddleware_await, trace_of_bind, last_next_value_spec, Hk2.
  cbn [runMiddleware ret trace_of snd]. rewrite app_nil_r.
  rewrite !nextFn_trace.
  fold (terminal_events this opts (S (length pre)) o1).
  fold (terminal_events this opts (S (length pre)) o2).
  split; [done|].
  intros parsed Hparse.
  rewrite resolver_args_app, resolver_args_pass_events.
  change (EvFn ?i ?a :: ?t1 ++ ?t2) with ([EvFn i a] ++ t1 ++ t2).
  rewrite !resolver_args_app.
  by rewrite !(resolver_args_terminal_events _ _ _ _ parsed Hparse).
Qed.

Lemma each_next_call_reruns_terminal_witness :
  resolver_args (trace_of (call (sample_procedure [mw_pass; mw_twice])
                             sample_opts))
  = [resolver_arg sample_opts (VStr "ctx0") (VStr "hi!");
     resolver_arg sample_opts (VStr "again") (VStr "hi!")].
Proof.
  assert (Hpre : once_along sample_opts [mw_pass] None).
  { eexists _, _. split_and!;
      [reflexivity|intros v; eexists; reflexivity|exact I]. }
  exact (proj2 (each_next_call_reruns_terminal
                  (sample_procedure [mw_pass; mw_twice]) sample_opts
                  [mw_pass] mw_twice None (Some (mkNextOpts (VStr "again")))
                  _ _ _ eq_refl Hpre eq_refl eq_refl eq_refl)
           (VStr "hi!") eq_refl).
Defined.

(** The context the resolver sees is decided by the last middleware alone.
    When the middlewares ahead each await [next] once on this call and the
    last one, at the arguments it is entered with, awaits [next(nextOpts)]
    once, the [ctx] property of the resolver's argument is the [ctx] of
    [nextOpts], or the call's own [ctx] when [nextOpts] is absent, whatever
    contexts the middlewares ahead passed on. *)
Theorem resolver_ctx_is_last_override (this : Procedure)
    (opts : ProcedureCallOptions) (pre : list Middleware) (fn : Middleware)
    (nextOpts : option NextOpts) (k : Value → MwProg) (parsed : Value) :
  middlewares this = pre ++ [fn] →
  once_along opts pre None →
  fn (args_after opts pre) = AwaitNext nextOpts k →
  (∀ v, ∃ o, k v = Settle o) →
  parseInputFn this (rawInput opts) = Fulfilled parsed →
  ∃ arg,
    resolver_args (trace_of (call this opts)) = [arg]
    ∧ getProp "ctx" arg = match nextOpts with
                          | Some o => next_ctx o
                          | None => ctx opts
                          end.
Proof.
  intros Emws Hon Hfn Hk Hparse.
  destruct (once_along_snoc opts pre fn None nextOpts k Hon Hfn Hk)
    as [Hall Hpt].
  pose proof (resolver_reached_along this opts parsed) as Hr.
  unfold args_after in Hr. rewrite Emws in Hr.
  specialize (Hr Hall Hparse).
  eexists. split; [exact Hr|].
  exact (f_equal (fun no => mw_ctx (link_args opts no)) Hpt).
Qed.

Lemma resolver_ctx_is_last_override_witness :
  ∃ arg,
    resolver_args
      (trace_of (call (sample_procedure [mw_with_ctx (VStr "user"); mw_pass])
                   sample_opts)) = [arg]
    ∧ getProp "ctx" arg = VStr "ctx0".
Proof.
  apply (resolver_ctx_is_last_override
           (sample_procedure [mw_with_ctx (VStr "user"); mw_pass]) sample_opts
           [mw_with_ctx (VStr "user")] mw_pass None
           (fun res => Settle (Fulfilled res)) (VStr "hi!") eq_refl).
  - eexists _, _. split_and!;
      [reflexivity|intros v; eexists; reflexivity|exact I].
  - reflexivity.
  - intros v. eexists. reflexivity.
  - reflexivity.
Defined.

(** Every value the output parse function is given during a call was
    returned by an invocation of the resolver earlier in that call. *)
Theorem validated_output_came_from_resolver (this : Procedure)
    (opts : ProcedureCallOptions) (t1 : list Event) (v : Value)
    (t2 : list Event) :
  trace_of (call this opts) = t1 ++ EvParseOutput v :: t2 →
  ∃ arg, EvResolver arg ∈ t1 ∧ resolver this arg = Fulfilled v.
Proof.
  intros E.
  destruct (output_parse_follows_resolver this opts t1 v t2 E)
    as (t0 & arg & -> & Hres).
  exists arg. split; [|done].
  apply elem_of_app. right. apply elem_of_cons. by left.
Qed.

Lemma validated_output_came_from_resolver_witness :
  ∃ arg,
    EvResolver arg ∈ take 3 (trace_of (call (sample_procedure []) sample_opts))
    ∧ resolver (sample_procedure []) arg = Fulfilled (VStr "hi!").
Proof.
  apply (validated_output_came_from_resolver (sample_procedure [])
           sample_opts _ (VStr "hi!") []).
  reflexivity.
Defined.
